(** * Verification of the elm-mirror-server utilities

    Shallow embedding of [split_mirror.py] (the bundle packer) and of
    [backfill_docs.py] (the docs back-fill utility), and a model of the
    mirror server's request handler, with the properties the specification
    states about them. *)

From Stdlib Require Import ZArith QArith Qpower String Ascii List Lia Lqa.
From Stdlib Require Import SpecFloat.
From stdpp Require Import base list strings gmap sorting pretty.

Local Open Scope Z_scope.

(** ** split_mirror.py *)

Module SplitMirror.

(** An element of [List[Tuple[str, int]]]: package path and size in bytes. *)
Definition package : Type := string * Z.

(** [MAX_CHUNK_SIZE = 2 * 1024 * 1024 * 1024 - 100 * 1024 * 1024]. *)
Definition MAX_CHUNK_SIZE : Z := 2 * 1024 * 1024 * 1024 - 100 * 1024 * 1024.

(** [sorted(packages, key=lambda x: x[1], reverse=True)].  Python's sort is
    stable, also under [reverse=True]: packages of equal size keep their
    input order.  [insert_desc x l] puts [x], which precedes every element of
    [l] in the input, in front of the first element that is not larger. *)
Fixpoint insert_desc (x : package) (l : list package) : list package :=
  match l with
  | [] => [x]
  | y :: l' => if x.2 <? y.2 then y :: insert_desc x l' else x :: l
  end.

Definition sorted_by_size_desc (packages : list package) : list package :=
  foldr insert_desc [] packages.

(** [chunk.sort()] on a list of [str]: ascending lexicographic order.  The
    strings are byte strings; the order of their bytes is the order of the
    code points they encode. *)
Fixpoint insert_str (x : string) (l : list string) : list string :=
  match l with
  | [] => [x]
  | y :: l' => if String.leb x y then x :: l else y :: insert_str x l'
  end.

Definition sort_strings (l : list string) : list string :=
  foldr insert_str [] l.

(** The two lists the loop of [create_chunks] mutates in parallel. *)
Record packer : Type := Packer {
  chunks : list (list string);
  chunk_sizes : list Z
}.

(** The first-fit scan [for i, chunk in enumerate(chunks): if chunk_sizes[i] +
    package_size <= max_size: ... break]: the first index that fits.  The
    two lists have one entry per chunk each, so the indices of [chunks] are
    those of [chunk_sizes]. *)
Fixpoint first_fit (sizes : list Z) (package_size max_size : Z) : option nat :=
  match sizes with
  | [] => None
  | s :: sizes' =>
      if s + package_size <=? max_size then Some O
      else S <$> first_fit sizes' package_size max_size
  end.

(** One iteration of [for package_path, package_size in sorted_packages]. *)
Definition place (max_size : Z) (st : packer) (p : package) : packer :=
  let '(package_path, package_size) := p in
  if max_size <? package_size then
    (* larger than a whole chunk: placed in a chunk of its own *)
    Packer (chunks st ++ [[package_path]]) (chunk_sizes st ++ [package_size])
  else
    match first_fit (chunk_sizes st) package_size max_size with
    | Some i =>
        Packer (alter (λ chunk, chunk ++ [package_path]) i (chunks st))
               (alter (λ s, s + package_size) i (chunk_sizes st))
    | None =>
        Packer (chunks st ++ [[package_path]]) (chunk_sizes st ++ [package_size])
    end.

Definition pack (max_size : Z) (sorted_packages : list package) : packer :=
  fold_left (place max_size) sorted_packages (Packer [] []).

Definition create_chunks (packages : list package) (max_size : Z)
  : list (list string) :=
  sort_strings <$> chunks (pack max_size (sorted_by_size_desc packages)).

(** The size the caller attributes to a package path, and to a chunk:
    [sum(get_dir_size(packages_dir / pkg) for pkg in chunk_packages)] in
    [main], with the sizes that [get_packages_with_sizes] recorded. *)
Fixpoint size_of (packages : list package) (path : string) : Z :=
  match packages with
  | [] => 0
  | (q, s) :: rest => if String.eqb q path then s else size_of rest path
  end.

Definition chunk_size (packages : list package) (chunk : list string) : Z :=
  foldr (λ path acc, size_of packages path + acc) 0 chunk.

(** Total size of a group of (path, size) pairs. *)
Definition total (g : list package) : Z := foldr (λ p acc, p.2 + acc) 0 g.

(** [create_packages_tar_gz]: the archive members, by [arcname], of one
    bundle; [present] tells whether [packages_dir / package] exists. *)
Definition create_packages_tar_gz (present : string → bool)
    (packages : list string) : list string :=
  (λ package, "mirror/packages/" +:+ package) <$> List.filter present packages.

End SplitMirror.

(** ** backfill_docs.py *)

Module BackfillDocs.

Definition ELM_PACKAGE_SERVER : string := "https://package.elm-lang.org".

(** Requests per hour. *)
Definition DEFAULT_RATE_LIMIT : Z := 10000.

(** The file system: what is found at each absolute path (a [Path], by its
    components). *)
Inductive node : Type :=
  | File (content : string)
  | Dir.

#[global] Instance node_eq_dec : EqDecision node.
Proof. solve_decision. Defined.

Abbreviation path := (list string).
Abbreviation files := (gmap path node).

(** [p.exists()] and [p.is_dir()]. *)
Definition exists_ (m : files) (p : path) : bool :=
  match m !! p with Some _ => true | None => false end.

Definition is_dir (m : files) (p : path) : bool :=
  match m !! p with Some Dir => true | _ => false end.

(** [p.parent] and [p.name]. *)
Definition parent (p : path) : option path :=
  match reverse p with
  | [] => None
  | _ :: r => Some (reverse r)
  end.

Definition name_of (p : path) : string := default "" (last p).

(** [d.iterdir()]: the entries of directory [d], in some order. *)
Definition iterdir (m : files) (d : path) : list path :=
  filter (λ p, parent p = Some d) (map_to_list m).*1.

(** An entry of [packages_to_update]. *)
Record pkg : Type := Pkg {
  author : string;
  name : string;
  version : string;
  docs_path : path
}.

(** The three nested loops of [main] that collect [packages_to_update]. *)
Definition find_packages (m : files) (packages_dir : path) : list pkg :=
  author_dir ← iterdir m packages_dir;
  if negb (is_dir m author_dir) then [] else
  name_dir ← iterdir m author_dir;
  if negb (is_dir m name_dir) then [] else
  version_dir ← iterdir m name_dir;
  if negb (is_dir m version_dir) then [] else
  let docs_path := version_dir ++ ["docs.json"] in
  let elm_json_path := version_dir ++ ["elm.json"] in
  (* Only update packages that have elm.json but no docs.json *)
  if exists_ m elm_json_path && negb (exists_ m docs_path) then
    [Pkg (name_of author_dir) (name_of name_dir) (name_of version_dir) docs_path]
  else [].

(** What [urllib.request.urlopen] does on a URL. *)
Inductive response : Type :=
  | Response (body : string)
  | RaiseHTTPError (code : Z) (reason : string)
  | RaiseOther (message : string).

(** The exceptions the loop of [main] tells apart. *)
Inductive exn : Type :=
  | HTTPError (code : Z) (reason : string)
  | OtherException (message : string).

(** The file operations of [with open(path, "w") as f: json.dump(docs, f)]:
    [open] creates or truncates the file at its final path, [json.dump]
    writes the chunks of the encoder one after the other (each taken to
    reach the file as it is written). *)
Inductive file_op : Type :=
  | OpOpen
  | OpWrite (chunk : string)
  | OpClose.

Definition exec_op (p : path) (m : files) (op : file_op) : files :=
  match op with
  | OpOpen => <[p := File ""]> m
  | OpWrite chunk =>
      match m !! p with
      | Some (File content) => <[p := File (content +:+ chunk)]> m
      | _ => m
      end
  | OpClose => m
  end.

Definition exec_ops (p : path) (ops : list file_op) (m : files) : files :=
  fold_left (exec_op p) ops m.

(** What the run observes and does, in order. *)
Inductive event : Type :=
  | EvFetch (author name version : string)
  | EvWrite (p : path)
  | EvSleep (seconds : Q).

(** The local state of [main] with the file system and the trace. *)
Record run : Type := Run {
  disk : files;
  success_count : Z;
  fail_count : Z;
  trace : list event
}.

(** How [main] ends: [return n] handed to [exit], or an uncaught exception. *)
Inductive outcome : Type :=
  | Exit (status : Z)
  | Uncaught (exception : string).

Record args : Type := Args {
  mirror_content : path;   (* already resolved *)
  rate_limit : Z
}.

(** A Python [float] is an IEEE 754 double: 53 binary digits, exponents
    below 1024.  The operations are those of the standard specification of
    binary floating-point arithmetic, rounding to nearest, ties to even. *)
Definition prec : Z := 53.
Definition emax : Z := 1024.

Abbreviation float := spec_float.

(** The conversion [float / int] applies to its [int] operand: the nearest
    double; [None] stands for [OverflowError] (int too large to convert to
    float), raised when the nearest double would be infinite. *)
Definition float_of_int (n : Z) : option float :=
  match binary_normalize prec emax n 0 false with
  | S754_infinity _ => None
  | x => Some x
  end.

(** The literal [3600.0], that is [7916483719987200 * 2^-41]. *)
Definition f3600 : float := S754_finite false 7916483719987200 (-41).

(** The number of seconds a finite double stands for. *)
Definition value (x : float) : Q :=
  match x with
  | S754_finite s m e => (inject_Z (cond_Zopp s (Zpos m)) * 2 ^ e)%Q
  | _ => 0%Q
  end.

Section World.

(** The decoded JSON document is kept abstract. *)
Context {json : Type}.

(** The environment of a run: the network, the JSON codec, and the
    operation at which the operating system fails a write, if it does. *)
Record world : Type := World {
  urlopen : string → response;
  json_loads : string → option json;
  iterencode : json → list string;
  write_fault : path → option nat
}.

Context (w : world).

Definition fetch_docs_json (author name version : string) : exn + json :=
  let url := ELM_PACKAGE_SERVER +:+ "/packages/" +:+ author +:+ "/" +:+ name
             +:+ "/" +:+ version +:+ "/docs.json" in
  match urlopen w url with
  | Response body =>
      match json_loads w body with
      | Some docs => inr docs
      | None => inl (OtherException "JSONDecodeError")
      end
  | RaiseHTTPError code reason => inl (HTTPError code reason)
  | RaiseOther message => inl (OtherException message)
  end.

Definition dump_ops (docs : json) : list file_op :=
  OpOpen :: (OpWrite <$> iterencode w docs) ++ [OpClose].

(** [with open(p, "w", encoding="utf-8") as f: json.dump(docs, f)]: the
    file system afterwards and whether the statement completed ([false]: an
    [OSError] was raised, at the operation the environment chose). *)
Definition write_docs (p : path) (docs : json) (m : files) : files * bool :=
  if is_dir m p then (m, false) else
  let ops := dump_ops docs in
  match write_fault w p with
  | Some k =>
      if (k <? length ops)%nat then (exec_ops p (take k ops) m, false)
      else (exec_ops p ops m, true)
  | None => (exec_ops p ops m, true)
  end.

Definition emit (e : event) (st : run) : run :=
  Run (disk st) (success_count st) (fail_count st) (trace st ++ [e]).

(** [delay = 3600.0 / args.rate_limit if args.rate_limit > 0 else 0]: the
    double that the division yields, as the number it stands for (the
    quotient of [3600.0] by a double that [float_of_int] yields for a
    positive [int] is finite); [None] when the conversion of the rate limit
    raises [OverflowError]. *)
Definition delay_of (rate_limit : Z) : option Q :=
  if 0 <? rate_limit then
    match float_of_int rate_limit with
    | Some y => Some (value (SFdiv prec emax f3600 y))
    | None => None
    end
  else Some 0%Q.

(** [delay > 0]. *)
Definition Qpositive (q : Q) : bool := (0 <? Qnum q).

(** The body of [for i, pkg in enumerate(packages_to_update, 1)], where [n]
    is [len(packages_to_update)]. *)
Definition iteration (delay : Q) (n i : nat) (pkg : pkg) (st : run) : run :=
  let st := emit (EvFetch (author pkg) (name pkg) (version pkg)) st in
  let st :=
    match fetch_docs_json (author pkg) (name pkg) (version pkg) with
    | inr docs =>
        let st := emit (EvWrite (docs_path pkg)) st in
        match write_docs (docs_path pkg) docs (disk st) with
        | (m, true) => Run m (success_count st + 1) (fail_count st) (trace st)
        | (m, false) => Run m (success_count st) (fail_count st + 1) (trace st)
        end
    | inl (HTTPError _ _) =>
        Run (disk st) (success_count st) (fail_count st + 1) (trace st)
    | inl (OtherException _) =>
        Run (disk st) (success_count st) (fail_count st + 1) (trace st)
    end in
  (* Rate limiting *)
  if Qpositive delay && (i <? n)%nat then emit (EvSleep delay) st else st.

Fixpoint loop (delay : Q) (n i : nat) (packages_to_update : list pkg)
    (st : run) : run :=
  match packages_to_update with
  | [] => st
  | pkg :: rest => loop delay n (S i) rest (iteration delay n i pkg st)
  end.

Definition main (a : args) (m : files) : outcome * run :=
  let mirror_dir := mirror_content a in
  let packages_dir := mirror_dir ++ ["packages"] in
  let st := Run m 0 0 [] in
  if negb (exists_ m packages_dir) then (Exit 1, st) else
  (* Calculate delay between requests *)
  match delay_of (rate_limit a) with
  | None => (Uncaught "OverflowError", st)
  | Some delay =>
      (* Find all package versions that need docs.json *)
      if negb (is_dir m packages_dir) then (Uncaught "NotADirectoryError", st)
      else
      let packages_to_update := find_packages m packages_dir in
      match packages_to_update with
      | [] => (Exit 0, st)
      | _ =>
          let st :=
            loop delay (length packages_to_update) 1 packages_to_update st in
          (Exit (if fail_count st =? 0 then 0 else 1), st)
      end
  end.

End World.

End BackfillDocs.

(** ** The mirror server *)

Module MirrorServer.

(** Modelled from the spec: the data model of the mirror engine
    ([elm_mirror.py], of which only the integration test is among the
    sources): package identities, the records of the sync log, and the
    artifacts of a package directory (spec, section 3). *)
Inductive status : Type := pending | success | failed.

#[global] Instance status_eq_dec : EqDecision status.
Proof. solve_decision. Defined.

(** Modelled from the spec: (author, name, version). *)
Abbreviation PackageIdentity := (string * string * string)%type.

(** Modelled from the spec: {identity, status, error detail}. *)
Record PackageRecord : Type := Record_ {
  identity : PackageIdentity;
  status_of : status;
  error : option string
}.

(** Modelled from the spec: manifest, integrity record (the stored digest),
    archive, and optional docs. *)
Record PackageDirectory : Type := Directory {
  manifest : option string;
  integrity_record : option string;
  archive : option string;
  docs : option string
}.

(** Modelled from the spec: what the Registry Store holds: the log, the
    version index and the package directories. *)
Record RegistryStore : Type := Store {
  log : list PackageRecord;
  version_index : string;
  directories : gmap PackageIdentity PackageDirectory
}.

(** Modelled from the spec: the routes of section 4.5. *)
Inductive request : Type :=
  | GetAllPackages
  | GetAllPackagesSince (N : nat)
  | GetPackageFile (id : PackageIdentity) (file : string)
  | GetOther (route : string).

Inductive body : Type :=
  | Raw (bytes : string)
  | Identities (ids : list PackageIdentity)
  | Endpoint (url hash : string)
  | Empty.

Record http_response : Type := Reply {
  status_code : Z;
  payload : body
}.

(** Modelled from the spec: an identity has a success record in the log. *)
Definition synced (s : RegistryStore) (id : PackageIdentity) : bool :=
  bool_decide (Exists (λ r, identity r = id ∧ status_of r = success) (log s)).

(** Modelled from the spec: the canonical archive path of an identity,
    [/packages/<a>/<n>/<v>/package.zip] (as the integration test expects
    it in [endpoint.json]). *)
Definition archive_path (id : PackageIdentity) : string :=
  "/packages/" +:+ id.1.1 +:+ "/" +:+ id.1.2 +:+ "/" +:+ id.2
  +:+ "/package.zip".

Definition raw (o : option string) : http_response :=
  match o with
  | Some bytes => Reply 200 (Raw bytes)
  | None => Reply 404 Empty
  end.

(** Modelled from the spec: the request handler of the Mirror Server
    (section 4.5): the routes and their contracts, with the availability
    rule: a request that names an identity without a success record is
    answered 503; 404 is for other routes and for absent files of a
    mirrored package. *)
Definition serve (base_url : string) (s : RegistryStore) (r : request)
  : http_response :=
  match r with
  | GetAllPackages => Reply 200 (Raw (version_index s))
  | GetAllPackagesSince N => Reply 200 (Identities (identity <$> drop N (log s)))
  | GetPackageFile id file =>
      if negb (synced s id) then Reply 503 Empty else
      match directories s !! id with
      | None => Reply 404 Empty
      | Some d =>
          if String.eqb file "endpoint.json" then
            match integrity_record d with
            | Some digest => Reply 200 (Endpoint (base_url +:+ archive_path id) digest)
            | None => Reply 404 Empty
            end
          else if String.eqb file "elm.json" then raw (manifest d)
          else if String.eqb file "docs.json" then raw (docs d)
          else if String.eqb file "package.zip" then raw (archive d)
          else Reply 404 Empty
      end
  | GetOther _ => Reply 404 Empty
  end.

End MirrorServer.

(** ** split_mirror.py on a file system *)

Module SplitMirrorMain.
Import BackfillDocs SplitMirror.

(** [entry.is_file()], and [entry.stat().st_size] of what is found there:
    the length of a file's content in bytes. *)
Definition is_file (m : files) (p : path) : bool :=
  match m !! p with Some (File _) => true | _ => false end.

Definition st_size (m : files) (p : path) : Z :=
  match m !! p with
  | Some (File content) => Z.of_nat (String.length content)
  | _ => 0
  end.

(** [path.rglob('*')]: everything below [path], in some order (in a file
    system whatever lies below a path is reached through directories). *)
Definition rglob (m : files) (d : path) : list path :=
  filter (λ p, d `prefix_of` p ∧ p ≠ d) (map_to_list m).*1.

Definition get_dir_size (m : files) (path : path) : Z :=
  fold_left (λ total entry,
               if is_file m entry then total + st_size m entry else total)
            (rglob m path) 0.

Definition get_file_size (m : files) (path : path) : Z :=
  if is_file m path then st_size m path else 0.

(** The order of [Path] objects: that of their lists of components. *)
Fixpoint path_leb (p q : path) : bool :=
  match p, q with
  | [], _ => true
  | _ :: _, [] => false
  | x :: p', y :: q' =>
      if String.eqb x y then path_leb p' q' else String.leb x y
  end.

(** [sorted(d.iterdir())]; the sort is stable. *)
Fixpoint insert_path (x : path) (l : list path) : list path :=
  match l with
  | [] => [x]
  | y :: l' => if path_leb x y then x :: l else y :: insert_path x l'
  end.

Definition sorted_paths (l : list path) : list path := foldr insert_path [] l.

Definition get_packages_with_sizes (m : files) (packages_dir : path)
  : list package :=
  (* Iterate over authors *)
  author_dir ← sorted_paths (iterdir m packages_dir);
  if negb (is_dir m author_dir) then [] else
  let author := name_of author_dir in
  (* Iterate over packages by this author *)
  package_dir ← sorted_paths (iterdir m author_dir);
  if negb (is_dir m package_dir) then [] else
  let package_name := name_of package_dir in
  let package_path := author +:+ "/" +:+ package_name in
  let package_size := get_dir_size m package_dir in
  [(package_path, package_size)].

(** [str.split("/")]. *)
Fixpoint split_slash (s : string) : list string :=
  match s with
  | EmptyString => [""]
  | String c s' =>
      if Ascii.eqb c "/" then "" :: split_slash s'
      else match split_slash s' with
           | x :: xs => String c x :: xs
           | [] => [String c ""]
           end
  end.

(** The components of a path given as a string: empty ones and ["."] are
    dropped. *)
Definition parts (s : string) : list string :=
  List.filter (λ x, negb (String.eqb x "") && negb (String.eqb x "."))
              (split_slash s).

(** [base / s]: an absolute [s] replaces [base]. *)
Definition joinpath (base : path) (s : string) : path :=
  match s with
  | String "/" _ => parts s
  | _ => base ++ parts s
  end.

(** [create_metadata_tar_gz]: the members, by [arcname]. *)
Definition create_metadata_tar_gz (m : files) (mirror_dir : path)
    (metadata_files : list string) : list string :=
  (λ meta_file, "mirror/" +:+ meta_file)
    <$> List.filter (λ meta_file, exists_ m (joinpath mirror_dir meta_file))
                    metadata_files.

(** An archive that [main] writes: its name, its members and the
    uncompressed size that [main] reports for it. *)
Record archive : Type := Archive {
  file_name : string;
  members : list string;
  uncompressed_size : Z
}.

Definition metadata_files : list string := ["all-packages"; "registry.json"].

(** The archive of the [i]-th chunk, [i] counted from 1. *)
Definition packages_archive (m : files) (mirror_dir : path) (date_str : string)
    (i : nat) (chunk_packages : list string) : archive :=
  let packages_dir := mirror_dir ++ ["packages"] in
  Archive
    ("mirror-" +:+ date_str +:+ "-packages-" +:+ pretty i +:+ ".tar.gz")
    (create_packages_tar_gz (λ package, exists_ m (joinpath packages_dir package))
                            chunk_packages)
    (foldr (λ pkg acc, get_dir_size m (joinpath packages_dir pkg) + acc) 0
           chunk_packages).

(** [main], given the mirror directory and today's date: how it ends and
    the archives it has written, in order.  The archives go to the
    directory of the script, outside the mirror. *)
Definition main (mirror_dir : path) (date_str : string) (m : files)
  : outcome * list archive :=
  if negb (exists_ m mirror_dir) then (Exit 1, []) else
  let packages_dir := mirror_dir ++ ["packages"] in
  if negb (exists_ m packages_dir) then (Exit 1, []) else
  let metadata_size :=
    foldr (λ f acc, get_file_size m (joinpath mirror_dir f) + acc) 0
          (List.filter (λ f, exists_ m (joinpath mirror_dir f)) metadata_files) in
  if negb (is_dir m packages_dir) then (Uncaught "NotADirectoryError", []) else
  let packages := get_packages_with_sizes m packages_dir in
  let chunks := create_chunks packages MAX_CHUNK_SIZE in
  let metadata_output :=
    Archive ("mirror-" +:+ date_str +:+ "-metadata.tar.gz")
            (create_metadata_tar_gz m mirror_dir metadata_files)
            metadata_size in
  (Exit 0,
   metadata_output
   :: imap (λ i chunk_packages,
              packages_archive m mirror_dir date_str (S i) chunk_packages)
           chunks).

End SplitMirrorMain.

(** ** test_integration.py *)

Module TestIntegration.

(** What a test function does when called: it returns whether the test
    passed, or raises. *)
Inductive test_outcome : Type :=
  | Returns (passed : bool)
  | Raises (message : string).

(** The loop of [main] over [tests]: the flag [all_passed] and the list
    [results]. *)
Definition run_test (st : bool * list (string * bool))
    (t : string * test_outcome) : bool * list (string * bool) :=
  let '(all_passed, results) := st in
  let '(name, test_func) := t in
  match test_func with
  | Returns passed =>
      (if negb passed then false else all_passed, results ++ [(name, passed)])
  | Raises _ => (false, results ++ [(name, false)])
  end.

(** [main]: the exit status and the summary. *)
Definition main (tests : list (string * test_outcome))
  : Z * list (string * bool) :=
  let '(all_passed, results) := fold_left run_test tests (true, []) in
  (if all_passed then 0 else 1, results).

End TestIntegration.

(** ** Properties of the bundle packer *)

Module SplitMirrorSpec.
Import SplitMirror.

Example MAX_CHUNK_SIZE_bytes : MAX_CHUNK_SIZE = 2042626048.
Proof. reflexivity. Qed.

Example create_chunks_ex1 :
  create_chunks [("b/x", 3); ("a/y", 5); ("c/z", 5); ("a/a", 2)] 8
  = [["a/y"; "b/x"]; ["a/a"; "c/z"]].
Proof. reflexivity. Qed.

(** A group of input pairs respects the cap, or is one oversize package. *)
Definition bounded (max_size : Z) (g : list package) : Prop :=
  total g <= max_size ∨ ∃ p, g = [p] ∧ max_size < p.2.

(** Proof device: the loop of [create_chunks] run on groups of whole pairs
    instead of on the two parallel lists. *)
Definition place_groups (max_size : Z) (gs : list (list package))
    (p : package) : list (list package) :=
  if max_size <? p.2 then gs ++ [[p]]
  else match first_fit (total <$> gs) p.2 max_size with
       | Some i => alter (λ g, g ++ [p]) i gs
       | None => gs ++ [[p]]
       end.

Definition erase (gs : list (list package)) : packer :=
  Packer ((λ g : list package, g.*1) <$> gs) (total <$> gs).

Lemma total_app g h : total (g ++ h) = total g + total h.
Proof. induction g as [|x g IH]; simpl; [lia | rewrite IH; lia]. Qed.

Lemma total_perm g h : g ≡ₚ h → total g = total h.
Proof. induction 1; simpl; lia. Qed.

Lemma first_fit_Some sizes s max_size i :
  first_fit sizes s max_size = Some i →
  ∃ sz, sizes !! i = Some sz ∧ sz + s <= max_size.
Proof.
  revert i. induction sizes as [|x sizes IH]; intros i; simpl; [done|].
  destruct (Z.leb_spec (x + s) max_size) as [Hle|Hgt].
  - intros [= <-]. exists x. split; [done | lia].
  - destruct (first_fit sizes s max_size) as [j|] eqn:E; simpl; [|done].
    intros [= <-]. apply IH. reflexivity.
Qed.

Lemma place_erase max_size gs p :
  place max_size (erase gs) p = erase (place_groups max_size gs p).
Proof.
  destruct p as [path size]. unfold place, place_groups, erase; simpl.
  destruct (max_size <? size).
  - rewrite !fmap_app. simpl. by rewrite Z.add_0_r.
  - destruct (first_fit (total <$> gs) size max_size) as [i|].
    + f_equal; symmetry; apply list_fmap_alter, Forall_forall; intros g _.
      * by rewrite fmap_app.
      * rewrite total_app. simpl. lia.
    + rewrite !fmap_app. simpl. by rewrite Z.add_0_r.
Qed.

Lemma pack_erase max_size l gs :
  fold_left (place max_size) l (erase gs)
  = erase (fold_left (place_groups max_size) l gs).
Proof.
  revert gs. induction l as [|p l IH]; intros gs; simpl; [done|].
  by rewrite place_erase, IH.
Qed.

(** The two lists stay of the same length, so that [chunk_sizes[i]] is
    defined for every index of [chunks]. *)
Lemma pack_parallel max_size l :
  length (chunks (pack max_size l)) = length (chunk_sizes (pack max_size l)).
Proof.
  unfold pack. change (Packer [] []) with (erase []).
  rewrite pack_erase. unfold erase; simpl. by rewrite !length_fmap.
Qed.

Lemma concat_alter_snoc (gs : list (list package)) i p :
  (i < length gs)%nat →
  concat (alter (λ g, g ++ [p]) i gs) ≡ₚ p :: concat gs.
Proof.
  revert i. induction gs as [|g gs IH]; intros i Hi; simpl in *; [lia|].
  destruct i as [|i]; simpl.
  - rewrite <- app_assoc. simpl. by rewrite <- Permutation_middle.
  - change (list_alter ?f i gs) with (alter f i gs).
    rewrite IH by lia. by rewrite Permutation_middle.
Qed.

Lemma place_groups_perm max_size gs p :
  concat (place_groups max_size gs p) ≡ₚ p :: concat gs.
Proof.
  unfold place_groups.
  assert (concat (gs ++ [[p]]) ≡ₚ p :: concat gs) as Hnew.
  { rewrite concat_app. simpl. by rewrite <- Permutation_cons_append. }
  destruct (max_size <? p.2); [done|].
  destruct (first_fit _ _ _) as [i|] eqn:E; [|done].
  apply first_fit_Some in E as (sz & Hsz & _).
  apply concat_alter_snoc.
  apply lookup_lt_Some in Hsz. by rewrite length_fmap in Hsz.
Qed.

Lemma place_groups_bounded max_size gs p :
  Forall (bounded max_size) gs →
  Forall (bounded max_size) (place_groups max_size gs p).
Proof.
  intros Hgs. unfold place_groups.
  destruct (Z.ltb_spec max_size p.2) as [Hbig|Hfits].
  - apply Forall_app. split; [done|].
    constructor; [|constructor]. right. by exists p.
  - destruct (first_fit _ _ _) as [i|] eqn:E.
    + apply first_fit_Some in E as (sz & Hsz & Hle).
      rewrite list_lookup_fmap in Hsz.
      destruct (gs !! i) as [g|] eqn:Hg; simplify_eq/=.
      apply Forall_alter; [done|]. intros h Hh _. simplify_eq.
      left. rewrite total_app. simpl. lia.
    + apply Forall_app. split; [done|].
      constructor; [|constructor]. left. simpl. lia.
Qed.

Lemma pack_groups_spec max_size l gs :
  let gs' := fold_left (place_groups max_size) l gs in
  concat gs' ≡ₚ concat gs ++ l ∧
  (Forall (bounded max_size) gs → Forall (bounded max_size) gs').
Proof.
  revert gs. induction l as [|p l IH]; intros gs; simpl.
  - by rewrite app_nil_r.
  - destruct (IH (place_groups max_size gs p)) as [Hperm Hb]. split.
    + rewrite Hperm, place_groups_perm. by rewrite <- Permutation_middle.
    + intros Hgs. by apply Hb, place_groups_bounded.
Qed.

Lemma insert_desc_perm x l : insert_desc x l ≡ₚ x :: l.
Proof.
  induction l as [|y l IH]; simpl; [done|].
  destruct (x.2 <? y.2); [|done]. rewrite IH. apply perm_swap.
Qed.

Lemma sorted_by_size_desc_perm l : sorted_by_size_desc l ≡ₚ l.
Proof.
  induction l as [|x l IH]; simpl; [done|].
  by rewrite insert_desc_perm, IH.
Qed.

Lemma insert_str_perm x l : insert_str x l ≡ₚ x :: l.
Proof.
  induction l as [|y l IH]; simpl; [done|].
  destruct (String.leb x y); [done|]. rewrite IH. apply perm_swap.
Qed.

Lemma sort_strings_perm l : sort_strings l ≡ₚ l.
Proof.
  induction l as [|x l IH]; simpl; [done|].
  by rewrite insert_str_perm, IH.
Qed.

(** The chunks are the sorted path lists of a partition of the input pairs
    into groups that respect the cap or hold one oversize package. *)
Lemma create_chunks_groups packages max_size :
  ∃ groups : list (list package),
    create_chunks packages max_size
      = (λ g, sort_strings (g.*1)) <$> groups ∧
    concat groups ≡ₚ packages ∧
    Forall (bounded max_size) groups.
Proof.
  exists (fold_left (place_groups max_size) (sorted_by_size_desc packages) []).
  destruct (pack_groups_spec max_size (sorted_by_size_desc packages) [])
    as [Hperm Hb]. simpl in *.
  split; [|split].
  - unfold create_chunks, pack.
    change (Packer [] []) with (erase []).
    rewrite pack_erase. unfold erase; simpl.
    by rewrite <- list_fmap_compose.
  - by rewrite Hperm, sorted_by_size_desc_perm.
  - apply Hb. constructor.
Qed.


Lemma elem_of_concat {A} (ls : list (list A)) l x :
  x ∈ l → l ∈ ls → x ∈ concat ls.
Proof.
  rewrite !list_elem_of_In. intros Hx Hl. apply in_concat. eauto.
Qed.


Lemma total_nonneg g : Forall (λ p : package, 0 <= p.2) g → 0 <= total g.
Proof. induction 1; simpl; lia. Qed.


Lemma sort_strings_singleton x : sort_strings [x] = [x].
Proof. reflexivity. Qed.


Lemma size_of_elem_of packages path size :
  NoDup (packages.*1) → (path, size) ∈ packages →
  size_of packages path = size.
Proof.
  induction packages as [|[q s] packages IH]; simpl; intros Hnd Hin.
  - by apply elem_of_nil in Hin.
  - apply NoDup_cons in Hnd as [Hq Hnd].
    destruct (String.eqb_spec q path) as [->|Hne].
    + apply elem_of_cons in Hin as [[= ->]|Hin]; [done|].
      exfalso. apply Hq. apply list_elem_of_fmap. by exists (path, size).
    + apply elem_of_cons in Hin as [[= -> ->]|Hin]; [done | by apply IH].
Qed.

Lemma chunk_size_fst packages g :
  NoDup (packages.*1) → g ⊆ packages →
  chunk_size packages (g.*1) = total g.
Proof.
  intros Hnd. induction g as [|[path size] g IH]; intros Hsub; [done|].
  change (size_of packages path + chunk_size packages (g.*1)
          = size + total g).
  rewrite IH.
  - f_equal. apply size_of_elem_of; [done|]. apply Hsub. by left.
  - intros x Hx. apply Hsub. by right.
Qed.

Lemma chunk_size_perm packages c c' :
  c ≡ₚ c' → chunk_size packages c = chunk_size packages c'.
Proof. induction 1; simpl; lia. Qed.



Lemma concat_sorted_perm (groups : list (list package)) :
  concat ((λ g : list package, sort_strings (g.*1)) <$> groups)
  ≡ₚ (concat groups).*1.
Proof.
  induction groups as [|g groups IH]; simpl; [done|].
  by rewrite fmap_app, IH, sort_strings_perm.
Qed.

(** C1 (as stated, refuted): with a package larger than the cap, the chunk
    that holds it exceeds the configured maximum. *)
Lemma create_chunks_over_cap :
  let packages := [("elm/core", 3000); ("elm/json", 1000)] in
  create_chunks packages 2500 = [["elm/core"]; ["elm/json"]] ∧
  ¬ (∀ chunk, chunk ∈ create_chunks packages 2500 →
              chunk_size packages chunk <= 2500).
Proof.
  split; [reflexivity|]. intros H.
  specialize (H ["elm/core"]). simpl in H.
  assert (3000 + 0 <= 2500); [|lia].
  apply H. vm_compute. by left.
Qed.

(** C1 (amended): for every input list and every maximum, the chunks of
    [create_chunks] are the path lists of a partition of the input pairs
    into groups, and every group either has total size not exceeding the
    maximum or consists of exactly one package whose own size exceeds it.
    Where the paths are distinct, as directory names are, the same holds of
    every chunk with the sizes looked up by path, as the caller does. *)
Theorem create_chunks_bounded packages max_size :
  (∃ groups : list (list package),
     create_chunks packages max_size
       = (λ g, sort_strings (g.*1)) <$> groups ∧
     concat groups ≡ₚ packages ∧
     Forall (λ g, total g <= max_size ∨ ∃ p, g = [p] ∧ max_size < p.2)
            groups) ∧
  (NoDup (packages.*1) →
   ∀ chunk, chunk ∈ create_chunks packages max_size →
     chunk_size packages chunk <= max_size ∨
     ∃ path, chunk = [path] ∧ max_size < size_of packages path).
Proof.
  destruct (create_chunks_groups packages max_size) as (gs & Heq & Hperm & Hb).
  split; [by exists gs|]. intros Hnd chunk Hc.
  rewrite Heq in Hc. apply list_elem_of_fmap in Hc as (g & -> & Hg).
  assert (g ⊆ packages) as Hsub.
  { intros x Hx. rewrite <- Hperm. by apply (elem_of_concat gs g). }
  rewrite Forall_forall in Hb. destruct (Hb g Hg) as [Hle|(p & -> & Hbig)].
  - left. rewrite (chunk_size_perm _ _ (g.*1)) by apply sort_strings_perm.
    by rewrite chunk_size_fst.
  - right. exists p.1. split; [done|].
    destruct p as [path size]. simpl in *.
    rewrite (size_of_elem_of packages path size); [done..|].
    apply Hsub. by left.
Qed.

Lemma create_chunks_bounded_witness :
  let packages := [("elm/core", 3000); ("elm/json", 1000)] in
  NoDup (packages.*1) ∧
  (chunk_size packages ["elm/json"] <= 2500 ∨
   ∃ path, ["elm/json"] = [path] ∧ 2500 < size_of packages path).
Proof.
  assert (NoDup ([("elm/core", 3000); ("elm/json", 1000)].*1)) as Hnd.
  { apply (bool_decide_unpack _). vm_compute. exact I. }
  split; [exact Hnd|].
  apply (create_chunks_bounded [("elm/core", 3000); ("elm/json", 1000)] 2500);
    [exact Hnd|].
  vm_compute. right. left.
Defined.

Lemma create_chunks_perm packages max_size :
  concat (create_chunks packages max_size) ≡ₚ packages.*1.
Proof.
  destruct (create_chunks_groups packages max_size) as (gs & -> & Hperm & _).
  rewrite concat_sorted_perm. by apply fmap_Permutation.
Qed.


(** With distinct package paths, no path occurs in two chunks or twice in
    one. *)
Lemma create_chunks_NoDup packages max_size :
  NoDup (packages.*1) → NoDup (concat (create_chunks packages max_size)).
Proof. intros H. by rewrite create_chunks_perm. Qed.

(** The bundle-packing scenario: sizes 1.2, 0.9, 0.5 and 0.3 GB under a cap
    of 1.9 GB, in tenths of a GB of [u] bytes each. *)
Definition scenario (u : Z) : list package :=
  [("elm/core", 12 * u); ("elm/browser", 9 * u);
   ("elm/html", 5 * u); ("elm/json", 3 * u)].

Ltac decide_comparisons :=
  repeat match goal with
    | |- context [?a <? ?b] => destruct (Z.ltb_spec a b); try lia
    | |- context [?a <=? ?b] => destruct (Z.leb_spec a b); try lia
    end.

Lemma scenario_chunks u :
  0 < u →
  create_chunks (scenario u) (19 * u)
  = [["elm/core"; "elm/html"]; ["elm/browser"; "elm/json"]].
Proof.
  intros Hu. unfold create_chunks, pack, scenario, sorted_by_size_desc.
  repeat (progress
    (cbn [foldr insert_desc fst snd fold_left place chunks chunk_sizes
          first_fit app fmap option_fmap option_map alter list_alter];
     decide_comparisons)).
  reflexivity.
Qed.

(** C4: on the sizes [1.2GB, 0.9GB, 0.5GB, 0.3GB] with a 1.9GB cap,
    [create_chunks] packs 1.2GB with 0.5GB and 0.9GB with 0.3GB: no chunk
    exceeds the cap, and the chunk of the 1.2GB package stays under it. *)
Theorem scenario_packing u :
  0 < u →
  let chunks := create_chunks (scenario u) (19 * u) in
  chunks = [["elm/core"; "elm/html"]; ["elm/browser"; "elm/json"]] ∧
  chunk_size (scenario u) <$> chunks = [17 * u; 12 * u] ∧
  (∀ chunk, chunk ∈ chunks → chunk_size (scenario u) chunk <= 19 * u) ∧
  (∀ chunk, chunk ∈ chunks → "elm/core" ∈ chunk →
            chunk_size (scenario u) chunk <= 19 * u).
Proof.
  intros Hu chunks. subst chunks. rewrite scenario_chunks by done.
  assert (chunk_size (scenario u) ["elm/core"; "elm/html"] = 17 * u) as H1
    by (cbn; lia).
  assert (chunk_size (scenario u) ["elm/browser"; "elm/json"] = 12 * u) as H2
    by (cbn; lia).
  assert (∀ chunk,
    chunk ∈ [["elm/core"; "elm/html"]; ["elm/browser"; "elm/json"]] →
    chunk_size (scenario u) chunk <= 19 * u) as H.
  { intros chunk Hc. apply elem_of_cons in Hc as [->|Hc]; [lia|].
    apply list_elem_of_singleton in Hc as ->. lia. }
  split; [done|]. split; [|split].
  - cbn [fmap list_fmap]. by rewrite H1, H2.
  - exact H.
  - intros chunk Hc _. by apply H.
Qed.

(** The scenario in bytes, with 1 GB = 10^9 bytes. *)
Lemma scenario_packing_witness :
  0 < 100000000 ∧
  create_chunks (scenario 100000000) 1900000000
  = [["elm/core"; "elm/html"]; ["elm/browser"; "elm/json"]].
Proof.
  split; [lia|].
  apply (scenario_packing 100000000). lia.
Defined.

Lemma groups_nonneg (packages : list package) gs g :
  Forall (λ p : package, 0 <= p.2) packages →
  concat gs ≡ₚ packages → g ∈ gs →
  Forall (λ p : package, 0 <= p.2) g.
Proof.
  rewrite !Forall_forall. intros Hnn Hperm Hg x Hx.
  apply Hnn. rewrite <- Hperm. by apply (elem_of_concat gs g).
Qed.



(** Where a size could be negative the oversize chunk may be shared: the
    first-fit scan compares [chunk_sizes[i] + package_size] only. *)
Example oversize_shared_with_negative_size :
  create_chunks [("elm/core", 10); ("elm/json", -5)] 7
  = [["elm/core"; "elm/json"]].
Proof. reflexivity. Qed.

End SplitMirrorSpec.

(** ** Properties of the docs back-fill utility *)

Module BackfillDocsSpec.
Import BackfillDocs.

(** *** Python floats *)

Lemma Zdigits2_log2 m : 0 < m → Zdigits2 m = Z.log2 m + 1.
Proof.
  destruct m as [|p|p]; try lia. intros _. simpl.
  destruct p as [p|p|]; simpl; try done.
  all: rewrite Pos2Z.inj_succ; f_equal; f_equal; induction p; simpl; congruence.
Qed.

Lemma Zdigits2_bounds m :
  0 < m → 2 ^ (Zdigits2 m - 1) <= m < 2 ^ Zdigits2 m.
Proof.
  intros Hm. rewrite Zdigits2_log2 by done.
  replace (Z.log2 m + 1 - 1) with (Z.log2 m) by lia.
  apply Z.log2_spec. done.
Qed.

Lemma Zdigits2_unique m k :
  2 ^ (k - 1) <= m < 2 ^ k → 0 < k → Zdigits2 m = k.
Proof.
  intros H Hk. assert (0 < m) by (pose proof (Z.pow_pos_nonneg 2 (k - 1)); lia).
  rewrite Zdigits2_log2 by done.
  rewrite (Z.log2_unique m (k - 1)); [lia | lia |].
  by replace (Z.succ (k - 1)) with k by lia.
Qed.

Lemma Zdigits2_le m k : 0 < m → m < 2 ^ k → Zdigits2 m <= k.
Proof.
  intros Hm Hk. destruct (Zdigits2_bounds m Hm) as [Hlo _].
  destruct (Z.le_gt_cases (Zdigits2 m) k) as [|Hgt]; [done|]. exfalso.
  assert (2 ^ k <= 2 ^ (Zdigits2 m - 1)); [|lia].
  apply Z.pow_le_mono_r; lia.
Qed.

Lemma Zdigits2_pos m : 0 < m → 0 < Zdigits2 m.
Proof. intros. rewrite Zdigits2_log2 by done. pose proof (Z.log2_nonneg m). lia. Qed.

Lemma shr_m_shr_1 mrs : 0 <= shr_m mrs → shr_m (shr_1 mrs) = shr_m mrs / 2.
Proof.
  destruct mrs as [m r s]. intros Hm. cbn [shr_m] in Hm.
  destruct m as [|[p|p|]|p]; cbn [shr_1 shr_m]; [done| | |done|lia].
  - rewrite (Pos2Z.inj_xI p). apply (Z.div_unique _ _ _ 1); lia.
  - rewrite (Pos2Z.inj_xO p). apply (Z.div_unique _ _ _ 0); lia.
Qed.

Lemma shr_m_iter p mrs :
  0 <= shr_m mrs → shr_m (SpecFloat.iter_pos shr_1 p mrs) = shr_m mrs / 2 ^ Zpos p.
Proof.
  revert mrs. induction p as [p IH|p IH|]; intros mrs Hm; simpl SpecFloat.iter_pos.
  - assert (0 <= shr_m (shr_1 mrs)) as H1.
    { rewrite shr_m_shr_1 by done. apply Z.div_pos; lia. }
    assert (0 <= shr_m (SpecFloat.iter_pos shr_1 p (shr_1 mrs))) as H2.
    { rewrite IH by done. apply Z.div_pos; [done|]. apply Z.pow_pos_nonneg; lia. }
    rewrite IH, IH, shr_m_shr_1 by done.
    rewrite !Z.div_div by (try apply Z.pow_pos_nonneg; lia).
    f_equal. rewrite (Pos2Z.inj_xI p).
    replace (2 * Z.pos p + 1) with (Z.pos p + Z.pos p + 1) by lia.
    rewrite !Z.pow_add_r by lia. lia.
  - assert (0 <= shr_m (SpecFloat.iter_pos shr_1 p mrs)) as H2.
    { rewrite IH by done. apply Z.div_pos; [done|]. apply Z.pow_pos_nonneg; lia. }
    rewrite IH, IH by done.
    rewrite !Z.div_div by (try apply Z.pow_pos_nonneg; lia).
    f_equal. rewrite (Pos2Z.inj_xO p).
    replace (2 * Z.pos p) with (Z.pos p + Z.pos p) by lia.
    rewrite !Z.pow_add_r by lia. lia.
  - rewrite shr_m_shr_1 by done. done.
Qed.

Lemma shr_m_record m l : shr_m (shr_record_of_loc m l) = m.
Proof. by destruct l as [|[]]. Qed.

(** Rounding to [prec] digits: the mantissa loses the digits beyond the
    53rd, the exponent grows by as much. *)
Definition excess (m : Z) : Z := Z.max 0 (Zdigits2 m - prec).

Lemma shr_fexp_norm m e l :
  0 < m → emin prec emax <= e →
  shr_m (shr_fexp prec emax m e l).1 = m / 2 ^ excess m ∧
  (shr_fexp prec emax m e l).2 = e + excess m.
Proof.
  intros Hm He. unfold shr_fexp, shr, fexp, excess, emin, prec, emax in *.
  pose proof (Zdigits2_pos m Hm) as Hd.
  destruct (Z.max _ _ - e) as [|n|n] eqn:En; simpl.
  - rewrite shr_m_record. replace (Z.max 0 _) with 0 by lia.
    rewrite Z.div_1_r. lia.
  - rewrite shr_m_iter by (rewrite shr_m_record; lia).
    rewrite shr_m_record. replace (Z.max 0 _) with (Z.pos n) by lia.
    split; [done | lia].
  - rewrite shr_m_record. replace (Z.max 0 _) with 0 by lia.
    rewrite Z.div_1_r. lia.
Qed.

Lemma round_nearest_even_cases m l :
  round_nearest_even m l = m ∨ round_nearest_even m l = m + 1.
Proof. destruct l as [|[]]; simpl; auto. destruct (Z.even m); auto. Qed.

Lemma div_excess_bounds m :
  0 < m → prec <= Zdigits2 m →
  2 ^ (prec - 1) <= m / 2 ^ excess m < 2 ^ prec.
Proof.
  intros Hm Hd. unfold excess. rewrite Z.max_r by lia.
  destruct (Zdigits2_bounds m Hm) as [Hlo Hhi].
  set (k := Zdigits2 m - prec) in *.
  assert (0 <= k) by lia.
  replace (Zdigits2 m - 1) with (prec - 1 + k) in Hlo by lia.
  replace (Zdigits2 m) with (prec + k) in Hhi by lia.
  unfold prec in *.
  rewrite Z.pow_add_r in Hlo, Hhi by lia.
  pose proof (Z.pow_pos_nonneg 2 k ltac:(lia) ltac:(lia)).
  split.
  - apply Z.div_le_lower_bound; lia.
  - apply Z.div_lt_upper_bound; lia.
Qed.

Lemma div_excess_small m :
  0 < m → Zdigits2 m <= prec → m / 2 ^ excess m = m ∧ m < 2 ^ prec.
Proof.
  intros Hm Hd. unfold excess. rewrite Z.max_l by lia.
  rewrite Z.div_1_r. split; [done|].
  destruct (Zdigits2_bounds m Hm) as [_ Hhi].
  eapply Z.lt_le_trans; [done|]. apply Z.pow_le_mono_r; lia.
Qed.

(** What [binary_round_aux] returns for a positive mantissa above the
    subnormal range: the mantissa cut to 53 digits and rounded, and cut
    once more when rounding carried into a 54th digit. *)
Definition rounded (mx ex : Z) (lx : location) : Z :=
  round_nearest_even (mx / 2 ^ excess mx)
    (loc_of_shr_record (shr_fexp prec emax mx ex lx).1).

Lemma rounded_bounds mx ex lx :
  0 < mx → emin prec emax <= ex →
  (rounded mx ex lx = mx / 2 ^ excess mx ∨
   rounded mx ex lx = mx / 2 ^ excess mx + 1) ∧
  0 < mx / 2 ^ excess mx ∧ 0 < rounded mx ex lx <= 2 ^ prec.
Proof.
  intros Hm He.
  assert (rounded mx ex lx = mx / 2 ^ excess mx ∨
          rounded mx ex lx = mx / 2 ^ excess mx + 1) as Hm1
    by apply round_nearest_even_cases.
  split; [done|].
  destruct (Z.le_gt_cases prec (Zdigits2 mx)).
  - pose proof (div_excess_bounds mx Hm H).
    pose proof (Z.pow_pos_nonneg 2 (prec - 1)). unfold prec in *. lia.
  - destruct (div_excess_small mx Hm) as [Heq Hlt]; [lia|].
    rewrite Heq in *. lia.
Qed.

Lemma binary_round_aux_eq sx mx ex lx :
  0 < mx → emin prec emax <= ex →
  binary_round_aux prec emax sx mx ex lx
  = let m1 := rounded mx ex lx in
    let carry := m1 =? 2 ^ prec in
    let e := ex + excess mx + (if carry then 1 else 0) in
    if e <=? emax - prec
    then S754_finite sx (Z.to_pos (if carry then 2 ^ (prec - 1) else m1)) e
    else S754_infinity sx.
Proof.
  intros Hm He. destruct (rounded_bounds mx ex lx Hm He) as (_ & _ & Hm1b).
  unfold binary_round_aux. unfold rounded in *.
  destruct (shr_fexp_norm mx ex lx Hm He) as [H1 H2].
  destruct (shr_fexp prec emax mx ex lx) as [mrs' e']. cbn [fst snd] in *.
  rewrite H1. set (m1 := round_nearest_even _ _) in *.
  assert (emin prec emax <= e') as He'.
  { unfold excess in H2. lia. }
  destruct (shr_fexp_norm m1 e' loc_Exact ltac:(lia) He') as [H3 H4].
  destruct (shr_fexp prec emax m1 e' loc_Exact) as [mrs'' e''].
  cbn [fst snd] in *. cbv zeta.
  destruct (Z.eqb_spec m1 (2 ^ prec)) as [Heq|Hne].
  - assert (Zdigits2 m1 = prec + 1) as Hd.
    { apply Zdigits2_unique; [|unfold prec; lia].
      rewrite Heq. unfold prec. simpl. lia. }
    assert (excess m1 = 1) as Hex by (unfold excess; lia).
    rewrite Hex in *. rewrite H3, Heq.
    change (2 ^ prec / 2 ^ 1) with (Zpos (2 ^ 52)).
    subst e'' e'. done.
  - assert (Zdigits2 m1 <= prec) as Hd by (apply Zdigits2_le; lia).
    assert (excess m1 = 0) as Hex by (unfold excess; lia).
    rewrite Hex in *. rewrite Z.div_1_r in H3. rewrite H3.
    subst e'' e'. destruct m1 as [|p|p]; try lia. done.
Qed.

Lemma binary_round_aux_pos sx mx ex lx :
  0 < mx → emin prec emax <= ex →
  ∃ (m : positive) (e : Z),
    binary_round_aux prec emax sx mx ex lx
    = (if e <=? emax - prec then S754_finite sx m e else S754_infinity sx) ∧
    ex + excess mx <= e <= ex + excess mx + 1 ∧
    Zpos m * 2 ^ (e - (ex + excess mx)) = rounded mx ex lx ∧
    Zpos m < 2 ^ prec.
Proof.
  intros Hm He. rewrite binary_round_aux_eq by done. cbv zeta.
  destruct (rounded_bounds mx ex lx Hm He) as (_ & _ & Hm1b).
  destruct (Z.eqb_spec (rounded mx ex lx) (2 ^ prec)) as [Heq|Hne].
  - eexists _, _. split; [done|]. rewrite Heq.
    replace (ex + excess mx + 1 - (ex + excess mx)) with 1 by lia.
    unfold prec. simpl. lia.
  - eexists _, _. split; [done|].
    replace (ex + excess mx + 0 - (ex + excess mx)) with 0 by lia.
    rewrite Z2Pos.id by lia. lia.
Qed.

Lemma iter_xO m d : Zpos (Pos.iter xO m d) = Zpos m * 2 ^ Zpos d.
Proof.
  induction d as [|d IH] using Pos.peano_ind.
  - simpl. lia.
  - rewrite Pos.iter_succ, Pos2Z.inj_xO, IH, Pos2Z.inj_succ, Z.pow_succ_r by lia.
    lia.
Qed.

Lemma shr_r_shr_1 mrs : 0 <= shr_m mrs → shr_r (shr_1 mrs) = Z.odd (shr_m mrs).
Proof.
  destruct mrs as [m r s]. cbn [shr_m]. intros Hm.
  by destruct m as [|[p|p|]|p]; try lia.
Qed.

Lemma shr_r_iter p mrs :
  0 <= shr_m mrs →
  shr_r (SpecFloat.iter_pos shr_1 p mrs) = Z.odd (shr_m mrs / 2 ^ (Zpos p - 1)).
Proof.
  revert mrs. induction p as [p IH|p IH|]; intros mrs Hm;
    simpl SpecFloat.iter_pos.
  - assert (0 <= shr_m (shr_1 mrs)) as H1.
    { rewrite shr_m_shr_1 by done. apply Z.div_pos; lia. }
    assert (0 <= shr_m (SpecFloat.iter_pos shr_1 p (shr_1 mrs))) as H2.
    { rewrite shr_m_iter by done. apply Z.div_pos; [done|].
      apply Z.pow_pos_nonneg; lia. }
    rewrite IH, shr_m_iter, shr_m_shr_1 by done.
    rewrite !Z.div_div by (try apply Z.pow_pos_nonneg; lia).
    f_equal. f_equal. rewrite (Pos2Z.inj_xI p).
    replace (2 * Z.pos p + 1 - 1) with (1 + Z.pos p + (Z.pos p - 1)) by lia.
    rewrite !Z.pow_add_r by lia. lia.
  - assert (0 <= shr_m (SpecFloat.iter_pos shr_1 p mrs)) as H2.
    { rewrite shr_m_iter by done. apply Z.div_pos; [done|].
      apply Z.pow_pos_nonneg; lia. }
    rewrite IH, shr_m_iter by done.
    rewrite !Z.div_div by (try apply Z.pow_pos_nonneg; lia).
    f_equal. f_equal. rewrite (Pos2Z.inj_xO p).
    replace (2 * Z.pos p - 1) with (Z.pos p + (Z.pos p - 1)) by lia.
    rewrite !Z.pow_add_r by lia. lia.
  - rewrite shr_r_shr_1 by done. by rewrite Z.div_1_r.
Qed.

Lemma shr_fexp_r m e l :
  0 < m → emin prec emax <= e → 0 < excess m →
  shr_r (shr_fexp prec emax m e l).1 = Z.odd (m / 2 ^ (excess m - 1)).
Proof.
  intros Hm He Hex. unfold shr_fexp, shr, fexp, excess, emin, prec, emax in *.
  destruct (Z.max _ _ - e) as [|n|n] eqn:En; try lia. cbn [fst].
  rewrite shr_r_iter by (rewrite shr_m_record; lia).
  rewrite shr_m_record. do 3 f_equal. lia.
Qed.

Lemma round_nearest_even_r m r s :
  round_nearest_even m (loc_of_shr_record (Build_shr_record m r s))
  = if r then (if s then m + 1 else if Z.even m then m else m + 1) else m.
Proof. by destruct r, s. Qed.

(** The least positive [int] that does not convert to a double. *)
Definition FLOAT_LIMIT : Z := 2 ^ 1024 - 2 ^ 970.

Lemma float_of_int_small p :
  Zdigits2 (Zpos p) <= prec → is_Some (float_of_int (Zpos p)).
Proof.
  intros Hd. pose proof (Zdigits2_bounds (Zpos p) ltac:(lia)) as Hp.
  pose proof (Zdigits2_pos (Zpos p) ltac:(lia)) as Hd0.
  unfold float_of_int, binary_normalize, binary_round, shl_align.
  cbn [Zdigits2] in *. set (d := Zpos (digits2_pos p)) in *.
  replace (fexp prec emax (d + 0) - 0) with (d - prec)
    by (unfold fexp, emin, prec, emax in *; lia).
  assert (∀ mz ez, Zpos mz < 2 ^ prec → -52 <= ez <= 0 →
            is_Some match binary_round_aux prec emax false (Zpos mz) ez loc_Exact with
                    | S754_infinity _ => None
                    | x => Some x
                    end) as Haux.
  { intros mz ez Hmz Hez.
    destruct (binary_round_aux_pos false (Zpos mz) ez loc_Exact)
      as (m & e & -> & He & _); [lia | unfold emin, prec, emax; lia|].
    pose proof (Zdigits2_le (Zpos mz) prec ltac:(lia) Hmz).
    unfold excess, prec, emax in *.
    destruct (Z.leb_spec e (1024 - 53)); [done | lia]. }
  destruct (d - prec) as [|k|k] eqn:Ek.
  - apply Haux; [|lia]. replace d with prec in Hp by lia. lia.
  - lia.
  - replace (fexp prec emax (d + 0)) with (d - prec)
      by (unfold fexp, emin, prec, emax in *; lia).
    apply Haux; [|unfold prec in *; lia].
    rewrite iter_xO.
    replace prec with (d + Zpos k) by lia.
    rewrite Z.pow_add_r by lia.
    pose proof (Z.pow_pos_nonneg 2 (Zpos k) ltac:(lia) ltac:(lia)). nia.
Qed.

Lemma FLOAT_LIMIT_eq : FLOAT_LIMIT = (2 ^ 54 - 1) * 2 ^ 970.
Proof. vm_compute. reflexivity. Qed.

Lemma carry_1024 p :
  Zdigits2 (Zpos p) = 1024 →
  rounded (Zpos p) 0 loc_Exact = 2 ^ prec ↔ FLOAT_LIMIT <= Zpos p.
Proof.
  intros Hd. pose proof (Zdigits2_bounds (Zpos p) ltac:(lia)) as Hp.
  rewrite Hd in Hp.
  assert (excess (Zpos p) = 971) as Hex by (unfold excess, prec; lia).
  pose proof (shr_fexp_r (Zpos p) 0 loc_Exact ltac:(lia)
                ltac:(unfold emin, prec, emax; lia) ltac:(lia)) as Hbit.
  destruct (shr_fexp_norm (Zpos p) 0 loc_Exact ltac:(lia)
              ltac:(unfold emin, prec, emax; lia)) as [Hm' _].
  unfold rounded. rewrite Hex in *.
  destruct (shr_fexp prec emax (Zpos p) 0 loc_Exact).1 as [m' r s].
  cbn [shr_m shr_r] in *. rewrite <- Hm'.
  rewrite round_nearest_even_r. rewrite FLOAT_LIMIT_eq.
  set (A := 2 ^ 970) in *.
  assert (0 < A) as HA by (apply Z.pow_pos_nonneg; lia).
  change (1024 - 1) with (53 + 970) in Hp.
  change 1024 with (54 + 970) in Hp.
  rewrite !Z.pow_add_r in Hp by lia. fold A in Hp.
  change (2 ^ 971) with (2 ^ (970 + 1)) in Hm'.
  rewrite Z.pow_add_r in Hm' by lia. fold A in Hm'.
  change (2 ^ 1) with 2 in Hm'.
  rewrite <- Z.div_div in Hm' by lia.
  change (971 - 1) with 970 in Hbit. fold A in Hbit.
  set (u := Zpos p / A) in *.
  assert (2 ^ 53 <= u < 2 ^ 54) as Hu.
  { split; [apply Z.div_le_lower_bound | apply Z.div_lt_upper_bound]; lia. }
  assert (FLOAT_LIMIT <= Zpos p ↔ 2 ^ 54 - 1 <= u) as Hlim.
  { rewrite FLOAT_LIMIT_eq. fold A. split.
    - intros H. apply Z.div_le_lower_bound; lia.
    - intros H. pose proof (Z.mul_div_le (Zpos p) A HA). fold u in H0. nia. }
  rewrite FLOAT_LIMIT_eq in Hlim. fold A in Hlim. rewrite Hlim.
  change (2 ^ prec) with 9007199254740992.
  change (2 ^ 53) with 9007199254740992 in *.
  change (2 ^ 54) with 18014398509481984 in *.
  destruct (Z.eq_dec u (18014398509481984 - 1)) as [Hu1|Hu1].
  - rewrite Hu1 in Hbit, Hm'. vm_compute in Hbit, Hm'. subst r m'.
    destruct s; cbn [Z.even]; lia.
  - destruct (Z.eq_dec u (18014398509481984 - 2)) as [Hu2|Hu2].
    + rewrite Hu2 in Hbit, Hm'. vm_compute in Hbit, Hm'. subst r m'. lia.
    + assert (m' <= 9007199254740992 - 2).
      { subst m'. apply Z.lt_succ_r. apply Z.div_lt_upper_bound; lia. }
      destruct r, s; try destruct (Z.even m'); lia.
Qed.

Lemma float_of_int_None N :
  0 < N → float_of_int N = None ↔ FLOAT_LIMIT <= N.
Proof.
  destruct N as [|p|p]; try lia. intros _.
  pose proof (Zdigits2_bounds (Zpos p) ltac:(lia)) as Hp.
  pose proof FLOAT_LIMIT_eq as HL.
  assert (0 < 2 ^ 970) as HA by (apply Z.pow_pos_nonneg; lia).
  destruct (Z.le_gt_cases (Zdigits2 (Zpos p)) prec) as [Hd|Hd].
  - destruct (float_of_int_small p Hd) as [y ->]. split; [done|].
    intros Hbig. exfalso.
    assert (2 ^ Zdigits2 (Zpos p) <= 2 ^ 53)
      by (apply Z.pow_le_mono_r; unfold prec in *; lia).
    change (2 ^ 53) with 9007199254740992 in *.
    change (2 ^ 54) with 18014398509481984 in *. nia.
  - pose proof (carry_1024 p) as Hcarry.
    unfold float_of_int, binary_normalize, binary_round, shl_align.
    cbn [Zdigits2] in *. set (d := Zpos (digits2_pos p)) in *.
    replace (fexp prec emax (d + 0) - 0) with (d - prec)
      by (unfold fexp, emin, prec, emax in *; lia).
    destruct (d - prec) as [|k|k] eqn:Ek; try lia.
    rewrite binary_round_aux_eq by (unfold emin, prec, emax; lia). cbv zeta.
    assert (excess (Zpos p) = d - prec) as Hex.
    { unfold excess. cbn [Zdigits2]. fold d. lia. }
    rewrite Hex.
    set (c := if _ =? _ then 1 else 0).
    assert (0 <= c <= 1 ∧ (c = 1 ↔ rounded (Zpos p) 0 loc_Exact = 2 ^ prec))
      as [Hc Hc1].
    { unfold c. destruct (Z.eqb_spec (rounded (Zpos p) 0 loc_Exact) (2 ^ prec));
        split; try lia; split; try done; lia. }
    unfold prec, emax in *.
    destruct (Z.lt_trichotomy d 1024) as [Hlt|[Heq|Hgt]].
    + assert (2 ^ d <= 2 ^ (53 + 970)) as Hle by (apply Z.pow_le_mono_r; lia).
      rewrite Z.pow_add_r in Hle by lia.
      change (2 ^ 53) with 9007199254740992 in *.
      change (2 ^ 54) with 18014398509481984 in *.
      destruct (Z.leb_spec (0 + (d - 53) + c) (1024 - 53)); [|lia].
      split; [done|]. nia.
    + rewrite <- Hcarry by done. rewrite <- Hc1.
      destruct (Z.leb_spec (0 + (d - 53) + c) (1024 - 53)).
      * split; [done|]. lia.
      * split; [lia|done].
    + assert (2 ^ (54 + 970) <= 2 ^ (d - 1)) as Hle
        by (apply Z.pow_le_mono_r; lia).
      rewrite Z.pow_add_r in Hle by lia.
      change (2 ^ 54) with 18014398509481984 in *.
      destruct (Z.leb_spec (0 + (d - 53) + c) (1024 - 53)); [lia|].
      split; [nia | done].
Qed.

Lemma pow2_add (a b : Z) : (2 ^ (a + b) == 2 ^ a * 2 ^ b)%Q.
Proof. by apply Qpower_plus. Qed.

Lemma pow2_pos (a : Z) : (0 < 2 ^ a)%Q.
Proof. by apply Qpower_0_lt. Qed.

Lemma pow2_Z (a : Z) : 0 <= a → (inject_Z (2 ^ a) == 2 ^ a)%Q.
Proof. intros. by rewrite Zpower_Qpower. Qed.

(** The mantissa and the exponent that [binary_round] starts from for an
    [int]: the same number, shifted to 53 digits when it has fewer. *)
Lemma shl_align_int p :
  let d := Zdigits2 (Zpos p) in
  let mz := (shl_align p 0 (fexp prec emax (d + 0))).1 in
  let ez := (shl_align p 0 (fexp prec emax (d + 0))).2 in
  -52 <= ez <= 0 ∧ ez + excess (Zpos mz) = d - prec ∧
  Zpos mz = Zpos p * 2 ^ (- ez).
Proof.
  intros d mz ez. subst mz ez.
  pose proof (Zdigits2_bounds (Zpos p) ltac:(lia)) as Hp.
  pose proof (Zdigits2_pos (Zpos p) ltac:(lia)) as Hd0. fold d in Hp, Hd0.
  unfold shl_align.
  replace (fexp prec emax (d + 0) - 0) with (d - prec)
    by (unfold fexp, emin, prec, emax in *; lia).
  destruct (d - prec) as [|k|k] eqn:Ek; cbn [fst snd].
  - unfold excess. fold d. split; [lia|]. split; [lia|]. simpl. lia.
  - unfold excess. fold d. split; [lia|]. split; [lia|]. simpl. lia.
  - replace (fexp prec emax (d + 0)) with (d - prec)
      by (unfold fexp, emin, prec, emax in *; lia).
    rewrite iter_xO.
    assert (Zdigits2 (Zpos p * 2 ^ Zpos k) = prec) as Hdz.
    { apply Zdigits2_unique; [|unfold prec; lia].
      replace (2 ^ (prec - 1)) with (2 ^ (d - 1) * 2 ^ Zpos k)
        by (rewrite <- Z.pow_add_r by lia; f_equal; lia).
      replace (2 ^ prec) with (2 ^ d * 2 ^ Zpos k)
        by (rewrite <- Z.pow_add_r by lia; f_equal; lia).
      pose proof (Z.pow_pos_nonneg 2 (Zpos k) ltac:(lia) ltac:(lia)). nia. }
    unfold excess. rewrite Hdz.
    replace (- (d - prec)) with (Zpos k) by lia.
    unfold prec in *. lia.
Qed.

Lemma float_of_int_value N y :
  0 < N → float_of_int N = Some y →
  ∃ m e, y = S754_finite false m e ∧
         Zpos m < 2 ^ prec ∧ -52 <= e <= emax - prec ∧
         (value y * 2 ^ 52 <= inject_Z N * (2 ^ 52 + 1))%Q.
Proof.
  destruct N as [|p|p]; try lia. intros _.
  unfold float_of_int, binary_normalize, binary_round.
  pose proof (shl_align_int p) as Hal. cbv zeta in Hal.
  pose proof (Zdigits2_bounds (Zpos p) ltac:(lia)) as [Hp _].
  pose proof (Zdigits2_pos (Zpos p) ltac:(lia)) as Hd0.
  cbn [Zdigits2] in Hal, Hp, Hd0.
  set (d := Zpos (digits2_pos p)) in *.
  destruct (shl_align p 0 _) as [mz ez]. cbn [fst snd] in Hal.
  destruct Hal as (Hez & Hex & Hmz).
  destruct (binary_round_aux_pos false (Zpos mz) ez loc_Exact)
    as (m & e & -> & He & Hm & Hd); [lia | unfold emin, prec, emax; lia|].
  destruct (rounded_bounds (Zpos mz) ez loc_Exact) as (Hr & _ & _);
    [lia | unfold emin, prec, emax; lia|].
  destruct (Z.leb_spec e (emax - prec)); intros [= <-].
  exists m, e. split; [done|]. split; [done|].
  split; [unfold prec, emax in *; lia|].
  set (k := excess (Zpos mz)) in *. set (r := rounded _ _ _) in *.
  assert (0 <= k) as Hk by (unfold k, excess; lia).
  set (t := e - (ez + k)) in *.
  assert (r * 2 ^ k <= Zpos mz + 2 ^ k) as Hrz.
  { pose proof (Z.pow_pos_nonneg 2 k ltac:(lia) Hk).
    pose proof (Z.mul_div_le (Zpos mz) (2 ^ k) ltac:(lia)). nia. }
  (* in the rationals *)
  rewrite Zle_Qle in Hrz, Hp.
  rewrite inject_Z_plus, inject_Z_mult, pow2_Z in Hrz by done.
  rewrite pow2_Z in Hp by lia.
  apply (f_equal inject_Z) in Hm, Hmz.
  rewrite inject_Z_mult in Hm, Hmz.
  rewrite <- Hm, Hmz in Hrz. rewrite !pow2_Z in Hrz by lia.
  unfold value. cbn [cond_Zopp].
  replace e with (t + k + ez) by (unfold t; lia).
  rewrite !pow2_add.
  pose proof (pow2_add (- ez) ez) as H1.
  replace (- ez + ez) with 0 in H1 by lia. change (2 ^ 0)%Q with 1%Q in H1.
  pose proof (pow2_add k ez) as H2.
  replace (k + ez) with (d - prec) in H2 by lia.
  pose proof (pow2_add (d - prec) 52) as H3.
  replace (d - prec + 52) with (d - 1) in H3 by (unfold prec; lia).
  pose proof (pow2_pos t). pose proof (pow2_pos k). pose proof (pow2_pos ez).
  pose proof (pow2_pos (- ez)). pose proof (pow2_pos (d - prec)).
  pose proof (pow2_pos 52).
  revert Hrz Hp H1 H2 H3 H0 H4 H5 H6 H7 H8.
  generalize (2 ^ t)%Q (2 ^ k)%Q (2 ^ ez)%Q (2 ^ (- ez))%Q (2 ^ (d - prec))%Q
    (2 ^ (d - 1))%Q (2 ^ 52)%Q (inject_Z (Zpos m)) (inject_Z (Zpos p)).
  intros a b c c' g g' h M P Hrz Hp H1 H2 H3 Ha Hb Hc Hc' Hg Hh.
  assert (M * a * b * c <= P + g)%Q as Hy.
  { rewrite H2.
    assert (M * a * b * c <= (P * c' + b) * c)%Q as Hs
      by (apply Qmult_le_compat_r; [exact Hrz | lra]).
    assert ((P * c' + b) * c == P * (c' * c) + b * c)%Q as Hs' by ring.
    rewrite Hs', <- H1 in Hs. lra. }
  nra.
Qed.

(** The quotient of [3600.0] by a positive double of the range of
    [float_of_int] is a positive double, and times the divisor it makes up
    3600 seconds but for [2^-40] at most. *)
Lemma div_3600_value m e :
  Zpos m < 2 ^ prec → -52 <= e <= emax - prec →
  ∃ m' e', SFdiv prec emax f3600 (S754_finite false m e)
           = S754_finite false m' e' ∧
           (3600 - 2 ^ (-40)
            <= value (S754_finite false m' e') * value (S754_finite false m e))%Q.
Proof.
  intros Hd He. cbv [SFdiv f3600 SFdiv_core_binary xorb].
  change (Zdigits2 (Zpos 7916483719987200)) with 53.
  pose proof (Zdigits2_le (Zpos m) prec ltac:(lia) Hd) as Hdp.
  pose proof (Zdigits2_bounds (Zpos m) ltac:(lia)) as Hm.
  cbn [Zdigits2] in *.
  set (d := Zpos (digits2_pos m)) in *.
  assert (0 < d) as Hd0 by (unfold d; lia).
  assert (Z.min (fexp prec emax (53 + -41 - (d + e))) (-41 - e)
          = -41 - e - d) as ->.
  { unfold fexp, emin, prec, emax in *. lia. }
  replace (-41 - e - (-41 - e - d)) with d by lia.
  unfold d at 1. fold d.
  rewrite Z.shiftl_mul_pow2 by lia.
  pose proof (Z_div_mod (Zpos 7916483719987200 * 2 ^ d) (Zpos m) ltac:(lia))
    as Hdiv.
  destruct (Z.div_eucl _ _) as [q r]. destruct Hdiv as [Hq Hr].
  pose proof (Z.pow_pos_nonneg 2 (d - 1) ltac:(lia) ltac:(lia)) as Hp.
  assert (2 ^ d = 2 * 2 ^ (d - 1)) as Hd2.
  { replace d with (d - 1 + 1) at 1 by lia. rewrite Z.pow_add_r by lia. lia. }
  assert (7916483719987200 <= q <= 2 * 7916483719987200) as Hqb by nia.
  assert (Zdigits2 q <= 54) as Hdq by (apply Zdigits2_le; lia).
  assert (53 <= Zdigits2 q) as Hdq'.
  { destruct (Z.le_gt_cases 53 (Zdigits2 q)); [done|]. exfalso.
    destruct (Zdigits2_bounds q ltac:(lia)) as [_ Hhi].
    assert (2 ^ Zdigits2 q <= 2 ^ 52) by (apply Z.pow_le_mono_r; lia).
    change (2 ^ 52) with 4503599627370496 in *. lia. }
  set (E := -41 - e - d) in *.
  destruct (binary_round_aux_pos false q E (new_location (Zpos m) r))
    as (m' & e' & -> & He' & Hm' & _); [lia | unfold E, emin, prec, emax in *; lia|].
  destruct (rounded_bounds q E (new_location (Zpos m) r)) as (Hrq & _ & _);
    [lia | unfold E, emin, prec, emax in *; lia|].
  set (k := excess q) in *. set (rq := rounded _ _ _) in *.
  assert (0 <= k <= 1) as Hk by (unfold k, excess, prec; lia).
  destruct (Z.leb_spec e' (emax - prec)) as [_|Hbig];
    [|unfold E, prec, emax in *; lia].
  exists m', e'. split; [done|].
  set (t := e' - (E + k)) in *.
  assert ((7916483719987200 - 2) * 2 ^ d
          <= Zpos m' * 2 ^ t * 2 ^ k * Zpos m) as Hz.
  { rewrite Hm'.
    assert (q - 1 <= rq * 2 ^ k) as Hq1.
    { assert (k = 0 ∨ k = 1) as [-> | ->] by lia.
      - rewrite Z.pow_0_r, Z.div_1_r in *. lia.
      - change (2 ^ 1) with 2 in *.
        pose proof (Z.mul_div_le q 2 ltac:(lia)).
        pose proof (Z.mod_pos_bound q 2 ltac:(lia)).
        pose proof (Z.div_mod q 2 ltac:(lia)). lia. }
    nia. }
  rewrite Zle_Qle in Hz.
  rewrite !inject_Z_mult, !pow2_Z in Hz by lia.
  unfold value. cbn [cond_Zopp].
  replace e' with (t + k + E) by (unfold t; lia).
  rewrite !pow2_add.
  pose proof (pow2_add E e) as H1.
  pose proof (pow2_add d (E + e)) as H2.
  replace (d + (E + e)) with (-41) in H2 by (unfold E; lia).
  pose proof (pow2_pos E). pose proof (pow2_pos e).
  assert (inject_Z (7916483719987200 - 2) * 2 ^ (-41) == 3600 - 2 ^ (-40))%Q
    as H3 by (vm_compute; reflexivity).
  rewrite <- H3.
  revert Hz H1 H2 H H0.
  generalize (2 ^ t)%Q (2 ^ k)%Q (2 ^ E)%Q (2 ^ e)%Q (2 ^ d)%Q
    (2 ^ (E + e))%Q (2 ^ (-41))%Q (inject_Z (Zpos m')) (inject_Z (Zpos m))
    (inject_Z (7916483719987200 - 2)).
  intros a b c c' D z u M' M X Hz H1 H2 Hc Hc'.
  assert (X * D * z <= M' * a * b * M * z)%Q as Hs
    by (apply Qmult_le_compat_r; [exact Hz | rewrite H1; nra]).
  rewrite H2. rewrite H1 in Hs. nra.
Qed.

Lemma value_pos m e : (0 < value (S754_finite false m e))%Q.
Proof.
  unfold value. cbn [cond_Zopp]. pose proof (pow2_pos e).
  assert (0 < inject_Z (Zpos m))%Q by (by rewrite <- (Zlt_Qlt 0)).
  nra.
Qed.

Lemma delay_3600 N y :
  0 < N → float_of_int N = Some y →
  (0 < value (SFdiv prec emax f3600 y))%Q ∧
  (3600 * (1 - 2 ^ (-50)) <= inject_Z N * value (SFdiv prec emax f3600 y))%Q.
Proof.
  intros HN Hy.
  destruct (float_of_int_value N y HN Hy) as (m & e & -> & Hm & He & HY).
  destruct (div_3600_value m e Hm He) as (m' & e' & -> & Hd).
  pose proof (value_pos m' e') as Hpos. split; [done|].
  pose proof (value_pos m e) as HYpos.
  revert Hd HY Hpos HYpos.
  generalize (value (S754_finite false m' e')) (value (S754_finite false m e))
    (inject_Z N).
  intros d Y n Hd HY Hpos HYpos.
  assert (d * (Y * 2 ^ 52) <= d * (n * (2 ^ 52 + 1)))%Q as Hs
    by (apply Qmult_le_l; done).
  assert ((3600 - 2 ^ (-40)) * 2 ^ 52 <= d * Y * 2 ^ 52)%Q as Hs'
    by (apply Qmult_le_compat_r; [done | by vm_compute]).
  assert (d * (Y * 2 ^ 52) == d * Y * 2 ^ 52)%Q as Ha by ring.
  assert (d * (n * (2 ^ 52 + 1)) == (n * d) * (2 ^ 52 + 1))%Q as Hb by ring.
  rewrite Ha, Hb in Hs. clear Ha Hb.
  assert ((3600 - 2 ^ (-40)) * 2 ^ 52 <= n * d * (2 ^ 52 + 1))%Q as Hc
    by (eapply Qle_trans; done).
  revert Hc. generalize (n * d)%Q. intros x Hc.
  change (2 ^ 52)%Q with (4503599627370496 # 1)%Q in Hc.
  change (2 ^ (-40))%Q with (1 # 1099511627776)%Q in Hc.
  change (2 ^ (-50))%Q with (1 # 1125899906842624)%Q.
  lra.
Qed.

Lemma parent_snoc (d : path) x : parent (d ++ [x]) = Some d.
Proof. unfold parent. by rewrite reverse_snoc, reverse_involutive. Qed.

Lemma parent_Some (p d : path) :
  parent p = Some d ↔ ∃ x, p = d ++ [x].
Proof.
  split; [|intros [x ->]; apply parent_snoc].
  unfold parent. destruct (reverse p) as [|x r] eqn:E; [done|].
  intros [= <-]. exists x.
  by rewrite <- (reverse_involutive p), E, reverse_cons.
Qed.

Lemma name_of_snoc (d : path) x : name_of (d ++ [x]) = x.
Proof. unfold name_of. by rewrite last_snoc. Qed.

Lemma name_of_app_snoc (d l : path) x : name_of (d ++ l ++ [x]) = x.
Proof. by rewrite app_assoc, name_of_snoc. Qed.

Lemma elem_of_iterdir (m : files) (d p : path) :
  p ∈ iterdir m d ↔ (∃ x, p = d ++ [x]) ∧ is_Some (m !! p).
Proof.
  unfold iterdir. rewrite list_elem_of_filter, parent_Some.
  apply and_iff_compat_l. rewrite list_elem_of_fmap. split.
  - intros ([q n] & -> & Hq). apply elem_of_map_to_list in Hq. by exists n.
  - intros [n Hn]. exists (p, n). split; [done|].
    by apply elem_of_map_to_list.
Qed.

Lemma is_dir_true (m : files) p : is_dir m p = true ↔ m !! p = Some Dir.
Proof. unfold is_dir. destruct (m !! p) as [[]|]; naive_solver. Qed.

Lemma exists_true (m : files) p : exists_ m p = true ↔ is_Some (m !! p).
Proof.
  unfold exists_. destruct (m !! p) eqn:E.
  - split; [by eexists | done].
  - split; [done | by intros [? ?]].
Qed.

Lemma exists_false (m : files) p : exists_ m p = false ↔ m !! p = None.
Proof. unfold exists_. by destruct (m !! p). Qed.

(** A version directory that [main] selects: three directory levels below
    [packages_dir], with [elm.json] and without [docs.json]. *)
Definition needs_docs (m : files) (packages_dir : path)
    (author name version : string) : Prop :=
  m !! (packages_dir ++ [author]) = Some Dir ∧
  m !! (packages_dir ++ [author; name]) = Some Dir ∧
  m !! (packages_dir ++ [author; name; version]) = Some Dir ∧
  is_Some (m !! (packages_dir ++ [author; name; version; "elm.json"])) ∧
  m !! (packages_dir ++ [author; name; version; "docs.json"]) = None.

Lemma elem_of_find_packages (m : files) (packages_dir : path) (pk : pkg) :
  pk ∈ find_packages m packages_dir ↔
  needs_docs m packages_dir (author pk) (name pk) (version pk) ∧
  docs_path pk
  = packages_dir ++ [author pk; name pk; version pk; "docs.json"].
Proof.
  unfold find_packages, needs_docs. rewrite list_elem_of_bind. split.
  - intros (ad & Hpk & Had). apply elem_of_iterdir in Had as [[a ->] _].
    destruct (is_dir m (packages_dir ++ [a])) eqn:Ea;
      [|by apply elem_of_nil in Hpk]. simpl in Hpk.
    apply list_elem_of_bind in Hpk as (nd & Hpk & Hnd).
    apply elem_of_iterdir in Hnd as [[n ->] _].
    destruct (is_dir m ((packages_dir ++ [a]) ++ [n])) eqn:En;
      [|by apply elem_of_nil in Hpk]. simpl in Hpk.
    apply list_elem_of_bind in Hpk as (vd & Hpk & Hvd).
    apply elem_of_iterdir in Hvd as [[v ->] _].
    destruct (is_dir m (((packages_dir ++ [a]) ++ [n]) ++ [v])) eqn:Ev;
      [|by apply elem_of_nil in Hpk]. simpl in Hpk.
    destruct (exists_ m _) eqn:Ee; [|by apply elem_of_nil in Hpk].
    destruct (exists_ m ((((packages_dir ++ [a]) ++ [n]) ++ [v]) ++ ["docs.json"]))
      eqn:Ed; [by apply elem_of_nil in Hpk|]. simpl in Hpk.
    apply list_elem_of_singleton in Hpk as ->. simpl.
    rewrite !name_of_snoc.
    apply is_dir_true in Ea, En, Ev. apply exists_true in Ee.
    apply exists_false in Ed.
    rewrite <- !app_assoc in *. simpl in *. done.
  - intros [(Ha & Hn & Hv & He & Hd) Hp].
    exists (packages_dir ++ [author pk]). split.
    2:{ apply elem_of_iterdir. split; [by eexists | by rewrite Ha]. }
    rewrite (proj2 (is_dir_true _ _) Ha). simpl.
    apply list_elem_of_bind. exists (packages_dir ++ [author pk; name pk]).
    split.
    2:{ apply elem_of_iterdir. split; [|by rewrite Hn].
        exists (name pk). by rewrite <- app_assoc. }
    rewrite (proj2 (is_dir_true _ _) Hn). simpl.
    apply list_elem_of_bind.
    exists (packages_dir ++ [author pk; name pk; version pk]). split.
    2:{ apply elem_of_iterdir. split; [|by rewrite Hv].
        exists (version pk). by rewrite <- app_assoc. }
    rewrite (proj2 (is_dir_true _ _) Hv). simpl.
    rewrite <- !app_assoc. simpl.
    rewrite (proj2 (exists_true _ _) He), (proj2 (exists_false _ _) Hd). simpl.
    apply list_elem_of_singleton.
    pose proof (name_of_app_snoc packages_dir [] (author pk)) as H1.
    pose proof (name_of_app_snoc packages_dir [author pk] (name pk)) as H2.
    pose proof (name_of_app_snoc packages_dir [author pk; name pk] (version pk))
      as H3.
    simpl in H1, H2, H3. rewrite H1, H2, H3.
    destruct pk; simpl in *. by subst.
Qed.

(** *** The write of one [docs.json] *)

Implicit Types (p q : path) (m : files) (op : file_op) (ops : list file_op).
Implicit Types (cs : list string) (content : string) (k j : nat).

Lemma exec_op_other p (m : files) op q :
  q ≠ p → exec_op p m op !! q = m !! q.
Proof.
  intros Hq. destruct op as [|chunk|]; simpl; [|destruct (m !! p) as [[c|]|]|];
    try done; by rewrite lookup_insert_ne.
Qed.

Lemma exec_ops_other p ops (m : files) q :
  q ≠ p → exec_ops p ops m !! q = m !! q.
Proof.
  intros Hq. unfold exec_ops. revert m.
  induction ops as [|op ops IH]; intros m; simpl; [done|].
  by rewrite IH, exec_op_other.
Qed.



(** The file content after the chunks [cs] were appended to [content]. *)
Definition appended (content : string) (cs : list string) : string :=
  fold_left String.append cs content.

Lemma exec_writes p cs (m : files) content :
  m !! p = Some (File content) →
  exec_ops p (OpWrite <$> cs) m !! p = Some (File (appended content cs)).
Proof.
  unfold exec_ops, appended. revert m content.
  induction cs as [|c cs IH]; intros m content Hm; simpl; [done|].
  rewrite Hm. apply IH. by rewrite lookup_insert_eq.
Qed.

Lemma exec_ops_app p ops1 ops2 (m : files) :
  exec_ops p (ops1 ++ ops2) m = exec_ops p ops2 (exec_ops p ops1 m).
Proof. unfold exec_ops. by rewrite fold_left_app. Qed.

(** *** Timing *)

(** A timing gives each event of a trace its start time.  [time.sleep(s)]
    takes [s] seconds or more, any other step takes some time or none: an
    event starts no earlier than the one before it started, plus the least
    time that one takes. *)
Definition min_duration (e : event) : Q :=
  match e with
  | EvSleep seconds => seconds
  | _ => 0%Q
  end.

Fixpoint timing_from (t : Q) (l : list (Q * event)) : Prop :=
  match l with
  | [] => True
  | (t', e) :: rest => (t <= t')%Q ∧ timing_from (t' + min_duration e)%Q rest
  end.


(** Times that start at [lo] or later and lie [d] or more apart. *)
Fixpoint spaced_from (d lo : Q) (ts : list Q) : Prop :=
  match ts with
  | [] => True
  | t :: rest => (lo <= t)%Q ∧ spaced_from d (t + d)%Q rest
  end.

Lemma spaced_from_weaken d lo lo' (ts : list Q) :
  (lo' <= lo)%Q → spaced_from d lo ts → spaced_from d lo' ts.
Proof. destruct ts as [|t ts]; simpl; [done|]. intros ? [? ?]. split; [lra|done]. Qed.

Lemma timing_from_weaken t t' (l : list (Q * event)) :
  (t' <= t)%Q → timing_from t l → timing_from t' l.
Proof.
  destruct l as [|[t1 e] l]; simpl; [done|]. intros ? [? ?]. split; [lra|done].
Qed.





Section WorldSpec.
Context {json : Type} (w : world (json := json)).
Implicit Types (docs : json).

(** The text [json.dump] produces. *)
Definition dumps (docs : json) : string := appended "" (iterencode w docs).

(** Every state of the file system during one write: after [k] of its
    operations, for each [k].  A reader may observe, and a crash or a failed
    operation may leave, any of them. *)
Definition write_states (p : path) (docs : json) (m : files) : list files :=
  (λ k, exec_ops p (take k (dump_ops w docs)) m)
    <$> seq 0 (S (length (dump_ops w docs))).

(** What an atomic write (to a temporary file, then a rename) guarantees:
    in every state the final path holds the old content or the new one. *)
Definition atomic_write (p : path) (docs : json) (m : files) : Prop :=
  ∀ m', m' ∈ write_states p docs m →
        m' !! p = m !! p ∨ m' !! p = Some (File (dumps docs)).

Lemma take_dump_ops k docs :
  (0 < k)%nat →
  ∃ j rest, take k (dump_ops w docs)
            = OpOpen :: (OpWrite <$> take j (iterencode w docs)) ++ rest ∧
            (rest = [] ∨ rest = [OpClose]) ∧
            (length (dump_ops w docs) ≤ k → j = length (iterencode w docs))%nat.
Proof.
  intros Hk. unfold dump_ops. destruct k as [|k]; [lia|]. simpl.
  destruct (decide (k ≤ length (iterencode w docs))%nat) as [Hle|Hgt].
  - exists k, []. rewrite take_app_le by (by rewrite length_fmap).
    rewrite fmap_take, app_nil_r. split; [done|]. split; [by left|].
    rewrite length_app, length_fmap. simpl. lia.
  - exists (length (iterencode w docs)), [OpClose].
    rewrite firstn_all, take_ge; [by eauto|].
    rewrite length_app, length_fmap. simpl. lia.
Qed.

Lemma exec_take_dump_ops p docs (m : files) k :
  (0 < k)%nat →
  ∃ j, exec_ops p (take k (dump_ops w docs)) m !! p
       = Some (File (appended "" (take j (iterencode w docs)))) ∧
       (length (dump_ops w docs) ≤ k → j = length (iterencode w docs))%nat.
Proof.
  intros Hk. destruct (take_dump_ops k docs Hk) as (j & rest & -> & Hrest & Hj).
  exists j. split; [|done].
  change (OpOpen :: ?l) with ([OpOpen] ++ l).
  rewrite !exec_ops_app.
  assert (exec_ops p rest
            (exec_ops p (OpWrite <$> take j (iterencode w docs))
               (exec_ops p [OpOpen] m))
          = exec_ops p (OpWrite <$> take j (iterencode w docs))
              (exec_ops p [OpOpen] m)) as ->
    by (by destruct Hrest as [-> | ->]).
  apply exec_writes. simpl. by rewrite lookup_insert_eq.
Qed.

(** *** One iteration, and the loop *)

Implicit Types (pk : pkg) (st : run) (delay : Q) (n i : nat).

Definition ident pk : string * string * string :=
  (author pk, name pk, version pk).

(** The fetch of a package raises. *)
Definition fetch_fails pk : bool :=
  match fetch_docs_json w (author pk) (name pk) (version pk) with
  | inr _ => false
  | inl _ => true
  end.

(** The write of [docs] to [p] raises. *)
Definition write_fails p docs : bool :=
  match write_fault w p with
  | Some k => (k <? length (dump_ops w docs))%nat
  | None => false
  end.

(** The attempt on a package fails: its fetch or its write raises. *)
Definition attempt_fails pk : bool :=
  match fetch_docs_json w (author pk) (name pk) (version pk) with
  | inr docs => write_fails (docs_path pk) docs
  | inl _ => true
  end.

(** The events of the iteration on the [i]-th of [n] packages. *)
Definition iteration_events delay n i pk : list event :=
  [EvFetch (author pk) (name pk) (version pk)]
  ++ (if fetch_fails pk then [] else [EvWrite (docs_path pk)])
  ++ (if Qpositive delay && (i <? n)%nat then [EvSleep delay] else []).

Lemma write_docs_disk p docs m :
  ∃ k, (write_docs w p docs m).1 = exec_ops p (take k (dump_ops w docs)) m.
Proof.
  unfold write_docs. destruct (is_dir m p); [by exists 0%nat|].
  destruct (write_fault w p) as [k|].
  - destruct (k <? _)%nat; [by exists k|].
    exists (length (dump_ops w docs)). by rewrite firstn_all.
  - exists (length (dump_ops w docs)). by rewrite firstn_all.
Qed.


Lemma iteration_trace delay n i pk st :
  trace (iteration w delay n i pk st)
  = trace st ++ iteration_events delay n i pk.
Proof.
  unfold iteration, iteration_events, fetch_fails.
  destruct (fetch_docs_json w _ _ _) as [[]|docs]; simpl;
    [| |destruct (write_docs w _ _ _) as [m' []]];
    destruct (Qpositive delay && (i <? n)%nat); simpl;
    by rewrite <- ?app_assoc.
Qed.

Lemma iteration_disk delay n i pk st :
  disk (iteration w delay n i pk st) = disk st ∨
  ∃ docs k, disk (iteration w delay n i pk st)
            = exec_ops (docs_path pk) (take k (dump_ops w docs)) (disk st).
Proof.
  unfold iteration.
  destruct (fetch_docs_json w _ _ _) as [[]|docs]; simpl.
  1,2: left; by destruct (Qpositive delay && (i <? n)%nat).
  right. exists docs.
  destruct (write_docs_disk (docs_path pk) docs (disk st)) as [k Hk].
  exists k. rewrite <- Hk.
  destruct (write_docs w _ _ _) as [m' []];
    by destruct (Qpositive delay && (i <? n)%nat).
Qed.

Lemma iteration_disk_other delay n i pk st q :
  q ≠ docs_path pk →
  disk (iteration w delay n i pk st) !! q = disk st !! q.
Proof.
  intros Hq. destruct (iteration_disk delay n i pk st) as [->|(docs & k & ->)];
    [done | by apply exec_ops_other].
Qed.



(** The events of the loop over [pks], numbered from [i]. *)
Fixpoint loop_events delay n i (pks : list pkg) : list event :=
  match pks with
  | [] => []
  | pk :: rest => iteration_events delay n i pk ++ loop_events delay n (S i) rest
  end.

Definition failures (pks : list pkg) : nat :=
  length (List.filter attempt_fails pks).

Lemma loop_trace delay n (pks : list pkg) i st :
  trace (loop w delay n i pks st) = trace st ++ loop_events delay n i pks.
Proof.
  revert i st. induction pks as [|pk pks IH]; intros i st; simpl.
  - by rewrite app_nil_r.
  - by rewrite IH, iteration_trace, <- app_assoc.
Qed.

Lemma loop_disk_other delay n (pks : list pkg) i st q :
  q ∉ docs_path <$> pks →
  disk (loop w delay n i pks st) !! q = disk st !! q.
Proof.
  revert i st. induction pks as [|pk pks IH]; intros i st Hq; simpl; [done|].
  rewrite fmap_cons, not_elem_of_cons in Hq. destruct Hq as [Hne Hq].
  by rewrite IH, iteration_disk_other.
Qed.


(** *** The whole run *)

Implicit Types (a : args) (tr : list event).

Definition packages_dir_of a : path := mirror_content a ++ ["packages"].

(** The state in which [main] ends when the packages directory is a
    directory and the delay was computed. *)
Definition final delay a m : run :=
  let pks := find_packages m (packages_dir_of a) in
  loop w delay (length pks) 1 pks (Run m 0 0 []).

Lemma main_dir a m delay :
  m !! packages_dir_of a = Some Dir →
  delay_of (rate_limit a) = Some delay →
  main w a m
  = (Exit (if fail_count (final delay a m) =? 0 then 0 else 1),
     final delay a m).
Proof.
  intros Hd Hdelay. unfold main, final, packages_dir_of in *.
  unfold exists_, is_dir. rewrite Hd, Hdelay. simpl.
  by destruct (find_packages m _).
Qed.


Lemma main_no_dir a m :
  m !! packages_dir_of a ≠ Some Dir → (main w a m).2 = Run m 0 0 [].
Proof.
  intros Hd. unfold main, packages_dir_of in *. unfold exists_, is_dir.
  destruct (m !! _) as [[c|]|]; simpl; try done;
    by destruct (delay_of (rate_limit a)).
Qed.

Lemma main_no_delay a m :
  delay_of (rate_limit a) = None → (main w a m).2 = Run m 0 0 [].
Proof.
  intros Hdelay. unfold main. rewrite Hdelay. by destruct (negb _).
Qed.


(** The requests of a trace, the paths it writes, and its trace without the
    writes. *)
Definition fetches tr : list (string * string * string) :=
  omap (λ e, match e with EvFetch au n v => Some (au, n, v) | _ => None end) tr.





Lemma fetches_loop_events delay n i (pks : list pkg) :
  fetches (loop_events delay n i pks) = ident <$> pks.
Proof.
  unfold fetches. revert i. induction pks as [|pk pks IH]; intros i; [done|].
  cbn [loop_events]. unfold iteration_events.
  rewrite !omap_app, IH.
  by destruct (fetch_fails pk), (Qpositive delay && (i <? n)%nat).
Qed.




Lemma final_trace delay a m :
  let pks := find_packages m (packages_dir_of a) in
  trace (final delay a m) = loop_events delay (length pks) 1 pks.
Proof. unfold final. by rewrite loop_trace. Qed.

Lemma main_disk_other a m q :
  q ∉ docs_path <$> find_packages m (packages_dir_of a) →
  disk (main w a m).2 !! q = m !! q.
Proof.
  intros Hq. destruct (decide (m !! packages_dir_of a = Some Dir)) as [Hd|Hd].
  - destruct (delay_of (rate_limit a)) as [delay|] eqn:Hdelay.
    + rewrite (main_dir a m delay) by done. simpl. unfold final.
      by rewrite loop_disk_other.
    + by rewrite main_no_delay.
  - by rewrite main_no_dir.
Qed.

Lemma elem_of_docs_paths a m q :
  q ∈ docs_path <$> find_packages m (packages_dir_of a) ↔
  ∃ au nm ver, needs_docs m (packages_dir_of a) au nm ver ∧
            q = packages_dir_of a ++ [au; nm; ver; "docs.json"].
Proof.
  rewrite list_elem_of_fmap. split.
  - intros (pk & -> & Hpk). apply elem_of_find_packages in Hpk as [Hn Hp].
    by exists (author pk), (name pk), (version pk).
  - intros (au & nm & ver & Hn & ->).
    exists (Pkg au nm ver (packages_dir_of a ++ [au; nm; ver; "docs.json"])).
    split; [done|]. by apply elem_of_find_packages.
Qed.





(** *** The delay *)

Lemma Qpositive_lt (x : Q) : (0 < x)%Q → Qpositive x = true.
Proof.
  unfold Qpositive, Qlt. simpl. intros H. apply Z.ltb_lt. lia.
Qed.

Lemma FLOAT_LIMIT_pos : 0 < FLOAT_LIMIT.
Proof. by vm_compute. Qed.


(** Line 52 raises [OverflowError] from [FLOAT_LIMIT] on. *)
Lemma delay_of_None N : delay_of N = None ↔ FLOAT_LIMIT <= N.
Proof.
  unfold delay_of. destruct (Z.ltb_spec 0 N) as [HN|HN].
  - rewrite <- float_of_int_None by done. by destruct (float_of_int N).
  - split; [done|]. pose proof FLOAT_LIMIT_pos. lia.
Qed.

(** Below it a positive rate limit [N] gives a positive delay [d], the
    double [3600.0 / N]; [N * d] is an hour but for one part in [2^50] at
    most. *)
Lemma delay_of_pos N :
  0 < N < FLOAT_LIMIT →
  ∃ y, float_of_int N = Some y ∧
       delay_of N = Some (value (SFdiv prec emax f3600 y)) ∧
       (0 < value (SFdiv prec emax f3600 y))%Q ∧
       (3600 * (1 - 2 ^ (-50))
        <= inject_Z N * value (SFdiv prec emax f3600 y))%Q.
Proof.
  intros [HN Hlim]. destruct (float_of_int N) as [y|] eqn:Hy.
  - exists y. destruct (delay_3600 N y HN Hy) as [Hpos Hlow].
    split; [done|]. split; [|by split].
    unfold delay_of. rewrite Hy. by destruct (Z.ltb_spec 0 N); [|lia].
  - apply float_of_int_None in Hy; [lia | done].
Qed.

Lemma delay_of_Some N : N < FLOAT_LIMIT → is_Some (delay_of N).
Proof.
  intros Hlim. destruct (delay_of N) eqn:Hdelay; [done|].
  apply delay_of_None in Hdelay. lia.
Qed.

(** *** The properties of the run *)




(** C9: the run changes the file system at no path other than the
    [docs.json] of a selected version: the sync log [registry.json], the
    version index [all-packages] and every other file of a version
    directory (manifest, archive, integrity record) stay as they were. *)
Theorem backfill_frame a m :
  (∀ q, (∀ au nm ver, needs_docs m (packages_dir_of a) au nm ver →
                      q ≠ packages_dir_of a ++ [au; nm; ver; "docs.json"]) →
        disk (main w a m).2 !! q = m !! q) ∧
  disk (main w a m).2 !! (mirror_content a ++ ["registry.json"])
  = m !! (mirror_content a ++ ["registry.json"]) ∧
  disk (main w a m).2 !! (mirror_content a ++ ["all-packages"])
  = m !! (mirror_content a ++ ["all-packages"]) ∧
  (∀ au nm ver file, file ≠ "docs.json" →
     disk (main w a m).2 !! (packages_dir_of a ++ [au; nm; ver; file])
     = m !! (packages_dir_of a ++ [au; nm; ver; file])).
Proof.
  assert (∀ q, (∀ au nm ver, needs_docs m (packages_dir_of a) au nm ver →
                  q ≠ packages_dir_of a ++ [au; nm; ver; "docs.json"]) →
               disk (main w a m).2 !! q = m !! q) as H.
  { intros q Hq. apply main_disk_other. rewrite elem_of_docs_paths.
    intros (au & nm & ver & Hn & ->). by eapply Hq. }
  split; [exact H|]. unfold packages_dir_of in *.
  split; [|split].
  - apply H. intros au nm ver _ Heq.
    apply (f_equal length) in Heq. rewrite !length_app in Heq. simpl in Heq. lia.
  - apply H. intros au nm ver _ Heq.
    apply (f_equal length) in Heq. rewrite !length_app in Heq. simpl in Heq. lia.
  - intros au nm ver file Hfile. apply H. intros au' nm' ver' _ Heq.
    apply app_inv_head in Heq. congruence.
Qed.

(** C5 (amended): [docs.json] is written in place.  No path but the final
    one is touched; until the first operation the file system is as
    before, and from then on the final path holds what the chunks written
    so far make up: a beginning of the text, the whole text once all
    operations are done.  A write that fails stops in one of these states. *)
Theorem backfill_write_in_place p docs m :
  Forall (λ m', (∀ q, q ≠ p → m' !! q = m !! q) ∧
                (m' = m ∨
                 ∃ j, m' !! p
                      = Some (File (appended "" (take j (iterencode w docs))))))
         (write_states p docs m) ∧
  last (write_states p docs m) = Some (exec_ops p (dump_ops w docs) m) ∧
  exec_ops p (dump_ops w docs) m !! p = Some (File (dumps docs)) ∧
  (write_docs w p docs m).1 ∈ write_states p docs m.
Proof.
  unfold write_states. split; [|split; [|split]].
  - apply Forall_forall. intros m' Hm'.
    apply list_elem_of_fmap in Hm' as (k & -> & _). split.
    + intros q Hq. by apply exec_ops_other.
    + destruct k as [|k]; [by left|]. right.
      destruct (exec_take_dump_ops p docs m (S k)) as (j & Hj & _); [lia|].
      by exists j.
  - rewrite seq_S, fmap_app. cbn [fmap list_fmap]. rewrite last_snoc.
    simpl. by rewrite firstn_all.
  - destruct (exec_take_dump_ops p docs m (length (dump_ops w docs)))
      as (j & Hj & Hlen).
    { unfold dump_ops. simpl. lia. }
    rewrite firstn_all in Hj. rewrite Hj, Hlen by lia.
    by rewrite firstn_all.
  - destruct (write_docs_disk p docs m) as [k ->].
    apply list_elem_of_fmap.
    exists (k `min` length (dump_ops w docs))%nat. split.
    + destruct (decide (k ≤ length (dump_ops w docs))%nat).
      * by rewrite Nat.min_l.
      * rewrite Nat.min_r by lia. by rewrite firstn_all, take_ge by lia.
    + apply elem_of_seq. lia.
Qed.

End WorldSpec.

(** *** A sample mirror *)

(** [elm/core 1.0.5] and [elm/html 1.0.0] lack [docs.json], [elm/json 1.1.3]
    has it, and [elm/browser 1.0.2] has no manifest. *)
Definition sample_disk : files :=
  list_to_map [
    (["srv"; "mirror"], Dir);
    (["srv"; "mirror"; "registry.json"], File "{}");
    (["srv"; "mirror"; "all-packages"], File "{}");
    (["srv"; "mirror"; "packages"], Dir);
    (["srv"; "mirror"; "packages"; "elm"], Dir);
    (["srv"; "mirror"; "packages"; "elm"; "core"], Dir);
    (["srv"; "mirror"; "packages"; "elm"; "core"; "1.0.5"], Dir);
    (["srv"; "mirror"; "packages"; "elm"; "core"; "1.0.5"; "elm.json"], File "{}");
    (["srv"; "mirror"; "packages"; "elm"; "html"], Dir);
    (["srv"; "mirror"; "packages"; "elm"; "html"; "1.0.0"], Dir);
    (["srv"; "mirror"; "packages"; "elm"; "html"; "1.0.0"; "elm.json"], File "{}");
    (["srv"; "mirror"; "packages"; "elm"; "json"], Dir);
    (["srv"; "mirror"; "packages"; "elm"; "json"; "1.1.3"], Dir);
    (["srv"; "mirror"; "packages"; "elm"; "json"; "1.1.3"; "elm.json"], File "{}");
    (["srv"; "mirror"; "packages"; "elm"; "json"; "1.1.3"; "docs.json"], File "[]");
    (["srv"; "mirror"; "packages"; "elm"; "browser"], Dir);
    (["srv"; "mirror"; "packages"; "elm"; "browser"; "1.0.2"], Dir)
  ].

(** A document is a list of number literals; the encoder yields its text in
    chunks as [json.dump] writes them. *)
Definition sample_iterencode (docs : list string) : list string :=
  match docs with
  | [] => ["[]"]
  | x :: xs => ("[" +:+ x) :: ((λ y, ", " +:+ y) <$> xs) ++ ["]"]
  end.

(** The upstream server answers 404 for [elm/html 1.0.0]; no write fails. *)
Definition sample_world : world (json := list string) :=
  World
    (λ url, if String.eqb url
                 "https://package.elm-lang.org/packages/elm/html/1.0.0/docs.json"
            then RaiseHTTPError 404 "Not Found" else Response "[1, 2]")
    (λ body, if String.eqb body "[1, 2]" then Some ["1"; "2"] else None)
    sample_iterencode
    (λ _, None).

(** The same, with the disk failing the third operation of every write. *)
Definition faulty_world : world (json := list string) :=
  World (urlopen sample_world) (json_loads sample_world) sample_iterencode
        (λ _, Some 2%nat).

Definition sample_args : args := Args ["srv"; "mirror"] DEFAULT_RATE_LIMIT.

(** A rate limit too large to convert to a float. *)
Definition huge_args : args := Args ["srv"; "mirror"] (10 ^ 400).

(** The double [3600.0 / 10000]: a little less than [0.36]. *)
Definition sample_delay : Q := 6485183463413514 # 18014398509481984.

Definition core_docs : path :=
  ["srv"; "mirror"; "packages"; "elm"; "core"; "1.0.5"; "docs.json"].

Example sample_run :
  let r := main sample_world sample_args sample_disk in
  r.1 = Exit 1 ∧
  success_count r.2 = 1 ∧ fail_count r.2 = 1 ∧
  disk r.2 !! core_docs = Some (File "[1, 2]") ∧
  trace r.2 = [EvFetch "elm" "html" "1.0.0"; EvSleep sample_delay;
               EvFetch "elm" "core" "1.0.5"; EvWrite core_docs].
Proof. vm_compute. repeat split. Qed.


(** A write that fails half way leaves the beginning of the text as
    [docs.json]; the next run finds a [docs.json] there and does not
    select the version again. *)
Example faulty_run :
  let r := main faulty_world sample_args sample_disk in
  r.1 = Exit 1 ∧
  disk r.2 !! core_docs = Some (File "[1") ∧
  ident <$> find_packages (disk r.2) (packages_dir_of sample_args)
  = [("elm", "html", "1.0.0")].
Proof. vm_compute. repeat split. Qed.

Lemma sample_packages_dir :
  sample_disk !! packages_dir_of sample_args = Some Dir.
Proof. reflexivity. Qed.

Lemma sample_rate_limit : 0 < rate_limit sample_args < FLOAT_LIMIT.
Proof. by vm_compute. Qed.

Example f3600_value : float_of_int 3600 = Some f3600 ∧ (value f3600 == 3600)%Q.
Proof. by vm_compute. Qed.

Example delay_of_default :
  delay_of DEFAULT_RATE_LIMIT = Some sample_delay ∧
  (sample_delay < 3600 / 10000)%Q.
Proof. by vm_compute. Qed.

(** The largest rate limit that converts gives the least delay. *)
Example delay_of_limit :
  delay_of (FLOAT_LIMIT - 1)
  = Some (inject_Z 7916483719987201 * 2 ^ (-1065))%Q ∧
  delay_of FLOAT_LIMIT = None ∧
  delay_of (rate_limit huge_args) = None.
Proof. by vm_compute. Qed.







Lemma backfill_frame_witness :
  disk (main sample_world sample_args sample_disk).2
    !! ["srv"; "mirror"; "packages"; "elm"; "json"; "1.1.3"; "docs.json"]
  = Some (File "[]").
Proof.
  rewrite (proj1 (backfill_frame sample_world sample_args sample_disk));
    [reflexivity|].
  intros au nm ver (_ & _ & _ & _ & Hnone) [= <- <- <-]. discriminate Hnone.
Defined.

(** C5 (as stated, refuted): the write of [docs.json] is not atomic: once
    the file is opened the final path holds an empty file, neither what was
    there before (nothing) nor the whole text. *)
Lemma backfill_write_not_atomic :
  ¬ atomic_write sample_world core_docs ["1"; "2"] sample_disk.
Proof.
  intros H.
  destruct (H (exec_ops core_docs [OpOpen] sample_disk)) as [H1|H1].
  - apply list_elem_of_fmap. exists 1%nat. split; [reflexivity|].
    apply elem_of_seq. simpl. lia.
  - vm_compute in H1. discriminate H1.
  - vm_compute in H1. discriminate H1.
Qed.

Lemma backfill_write_in_place_witness :
  exec_ops core_docs (dump_ops sample_world ["1"; "2"]) sample_disk !! core_docs
  = Some (File "[1, 2]").
Proof.
  apply (backfill_write_in_place sample_world core_docs ["1"; "2"] sample_disk).
Defined.

End BackfillDocsSpec.

(** ** Properties of the mirror server *)

Module MirrorServerSpec.
Import MirrorServer.

Lemma synced_false (s : RegistryStore) (id : PackageIdentity) :
  synced s id = false ↔
  ¬ ∃ r, r ∈ log s ∧ identity r = id ∧ status_of r = success.
Proof.
  unfold synced. rewrite bool_decide_eq_false, Exists_exists. naive_solver.
Qed.

Lemma synced_true (s : RegistryStore) (id : PackageIdentity) :
  synced s id = true ↔
  ∃ r, r ∈ log s ∧ identity r = id ∧ status_of r = success.
Proof.
  unfold synced. rewrite bool_decide_eq_true, Exists_exists. naive_solver.
Qed.

(** C2: a request that names an identity without a success record is
    answered 503 (never 404), whatever file it asks for; [endpoint.json] of
    a synced identity is answered 200 with the base URL followed by the
    canonical archive path, and the stored digest. *)
Theorem availability_gating (base_url : string) (s : RegistryStore)
    (id : PackageIdentity) :
  ((¬ ∃ r, r ∈ log s ∧ identity r = id ∧ status_of r = success) →
   ∀ file, status_code (serve base_url s (GetPackageFile id file)) = 503) ∧
  (∀ r d digest,
     r ∈ log s → identity r = id → status_of r = success →
     directories s !! id = Some d → integrity_record d = Some digest →
     serve base_url s (GetPackageFile id "endpoint.json")
     = Reply 200 (Endpoint (base_url +:+ archive_path id) digest)).
Proof.
  split.
  - intros Hno file. apply synced_false in Hno. simpl. by rewrite Hno.
  - intros r d digest Hr Hid Hst Hd Hdig.
    assert (synced s id = true) as Hs by (apply synced_true; eauto).
    simpl. by rewrite Hs, Hd, Hdig.
Qed.

(** The store of the integration test: [elm/core 1.0.5] synced, and
    [elm/html 1.0.0] never. *)
Definition sample_store : RegistryStore :=
  Store [Record_ ("elm", "core", "1.0.5") success None;
         Record_ ("elm", "json", "1.1.3") pending None;
         Record_ ("elm", "url", "1.0.0") failed (Some "HTTP 404")]
        "{}"
        {[ ("elm", "core", "1.0.5") :=
             Directory (Some "{}") (Some "0a1b2c3d4e5f60718293a4b5c6d7e8f901234567") (Some "PK")
                       (Some "[]") ]}.

Example test_serve :
  let base := "http://localhost:18765" in
  serve base sample_store (GetPackageFile ("elm", "core", "1.0.5") "endpoint.json")
  = Reply 200 (Endpoint "http://localhost:18765/packages/elm/core/1.0.5/package.zip"
                        "0a1b2c3d4e5f60718293a4b5c6d7e8f901234567") ∧
  status_code (serve base sample_store
                 (GetPackageFile ("elm", "html", "1.0.0") "endpoint.json")) = 503 ∧
  status_code (serve base sample_store
                 (GetPackageFile ("elm", "json", "1.1.3") "elm.json")) = 503 ∧
  status_code (serve base sample_store
                 (GetPackageFile ("elm", "url", "1.0.0") "package.zip")) = 503.
Proof. vm_compute. repeat split. Qed.

Lemma availability_gating_witness :
  status_code (serve "http://localhost:18765" sample_store
                 (GetPackageFile ("elm", "html", "1.0.0") "endpoint.json"))
  = 503.
Proof.
  apply (availability_gating "http://localhost:18765" sample_store
           ("elm", "html", "1.0.0")).
  intros (r & Hr & Hid & _). unfold sample_store in Hr. simpl in Hr.
  repeat (apply elem_of_cons in Hr as [->|Hr]; [discriminate Hid|]).
  by apply elem_of_nil in Hr.
Defined.

End MirrorServerSpec.

(** ** Further properties of the bundle packer *)

Module SplitMirrorPacking.
Import SplitMirror SplitMirrorSpec.

Implicit Types (g h : list package) (gs : list (list package)) (p : package).
Implicit Types (max_size : Z).

Definition nonneg (l : list package) : Prop := Forall (λ p, 0 <= p.2) l.

(** No two groups could be merged into one that respects the cap. *)
Definition unmergeable max_size gs : Prop :=
  ∀ (i j : nat) g h, (i < j)%nat → gs !! i = Some g → gs !! j = Some h →
                     max_size < total g + total h.

Lemma first_fit_None (sizes : list Z) s max_size :
  first_fit sizes s max_size = None → Forall (λ sz, max_size < sz + s) sizes.
Proof.
  induction sizes as [|x sizes IH]; simpl; [constructor|].
  destruct (Z.leb_spec (x + s) max_size) as [Hle|Hgt]; [done|].
  destruct (first_fit sizes s max_size); [done|].
  intros _. constructor; [lia | by apply IH].
Qed.

Lemma place_groups_nonempty max_size gs p :
  Forall (λ g, g ≠ []) gs → Forall (λ g, g ≠ []) (place_groups max_size gs p).
Proof.
  intros Hgs. unfold place_groups.
  assert (Forall (λ g : list package, g ≠ []) (gs ++ [[p]])) as Hnew.
  { apply Forall_app. split; [done|]. by repeat constructor. }
  destruct (max_size <? p.2); [done|].
  destruct (first_fit _ _ _) as [i|]; [|done].
  apply Forall_alter; [done|]. intros g _ _. by destruct g.
Qed.

Lemma place_groups_totals max_size gs p :
  0 <= p.2 →
  Forall (λ g, 0 <= total g) gs →
  Forall (λ g, 0 <= total g) (place_groups max_size gs p).
Proof.
  intros Hp Hgs. unfold place_groups.
  assert (Forall (λ g, 0 <= total g) (gs ++ [[p]])) as Hnew.
  { apply Forall_app. split; [done|]. repeat constructor. simpl. lia. }
  destruct (max_size <? p.2); [done|].
  destruct (first_fit _ _ _) as [i|]; [|done].
  apply Forall_alter; [done|]. intros g _ Hg. rewrite total_app. simpl. lia.
Qed.

Lemma unmergeable_snoc max_size gs g :
  unmergeable max_size gs →
  Forall (λ h, max_size < total h + total g) gs →
  unmergeable max_size (gs ++ [g]).
Proof.
  intros Hgs Hall i j g1 g2 Hij H1 H2.
  destruct (decide (j < length gs)%nat) as [Hj|Hj].
  - rewrite lookup_app_l in H1, H2 by lia. exact (Hgs i j g1 g2 Hij H1 H2).
  - pose proof (lookup_lt_Some _ _ _ H2) as Hlen.
    rewrite length_app in Hlen. simpl in Hlen.
    rewrite lookup_app_l in H1 by lia.
    rewrite lookup_app_r in H2 by lia.
    apply list_lookup_singleton_Some in H2 as [_ <-].
    exact (Forall_lookup_1 _ _ _ _ Hall H1).
Qed.

Lemma unmergeable_alter max_size gs (i0 : nat) p :
  0 <= p.2 → unmergeable max_size gs →
  unmergeable max_size (alter (λ g, g ++ [p]) i0 gs).
Proof.
  intros Hp Hgs i j g h Hij Hi Hj.
  assert (∀ (k : nat) g', alter (λ g, g ++ [p]) i0 gs !! k = Some g' →
            ∃ g0, gs !! k = Some g0 ∧ total g0 <= total g') as Hlook.
  { intros k g' Hk. destruct (decide (i0 = k)) as [->|Hne].
    - rewrite list_lookup_alter_eq in Hk.
      destruct (gs !! k) as [g0|]; simplify_eq/=.
      exists g0. split; [done|]. rewrite total_app. simpl. lia.
    - rewrite list_lookup_alter_ne in Hk by done. exists g'. split; [done|lia]. }
  destruct (Hlook _ _ Hi) as (g0 & Hg0 & ?).
  destruct (Hlook _ _ Hj) as (h0 & Hh0 & ?).
  pose proof (Hgs i j g0 h0 Hij Hg0 Hh0). lia.
Qed.

Lemma place_groups_unmergeable max_size gs p :
  0 <= p.2 → Forall (λ g, 0 <= total g) gs →
  unmergeable max_size gs → unmergeable max_size (place_groups max_size gs p).
Proof.
  intros Hp Hnn Hgs. unfold place_groups.
  destruct (Z.ltb_spec max_size p.2) as [Hbig|Hfits].
  - apply unmergeable_snoc; [done|].
    eapply Forall_impl; [exact Hnn|]. intros g Hg. simpl in *. lia.
  - destruct (first_fit _ _ _) as [i|] eqn:E.
    + by apply unmergeable_alter.
    + apply unmergeable_snoc; [done|].
      apply first_fit_None in E. rewrite Forall_fmap in E.
      eapply Forall_impl; [exact E|]. intros g Hg. simpl in *. lia.
Qed.

Lemma pack_groups_ffd max_size l gs :
  let gs' := fold_left (place_groups max_size) l gs in
  (Forall (λ g, g ≠ []) gs → Forall (λ g, g ≠ []) gs') ∧
  (nonneg l → Forall (λ g, 0 <= total g) gs → unmergeable max_size gs →
   unmergeable max_size gs').
Proof.
  revert gs. induction l as [|p l IH]; intros gs; simpl; [done|].
  destruct (IH (place_groups max_size gs p)) as [IH1 IH2]. split.
  - intros Hgs. by apply IH1, place_groups_nonempty.
  - intros [Hp Hl]%Forall_cons Hnn Hgs. apply IH2; [done| |].
    + by apply place_groups_totals.
    + by apply place_groups_unmergeable.
Qed.

(** The groups behind the chunks, with what first-fit adds to
    [create_chunks_groups]. *)
Lemma create_chunks_ffd packages max_size :
  ∃ gs,
    create_chunks packages max_size = (λ g, sort_strings (g.*1)) <$> gs ∧
    concat gs ≡ₚ packages ∧
    Forall (λ g, g ≠ []) gs ∧
    (nonneg packages → unmergeable max_size gs).
Proof.
  exists (fold_left (place_groups max_size) (sorted_by_size_desc packages) []).
  destruct (pack_groups_spec max_size (sorted_by_size_desc packages) [])
    as [Hperm _].
  destruct (pack_groups_ffd max_size (sorted_by_size_desc packages) [])
    as [Hne Hun]. simpl in *.
  split; [|split; [|split]].
  - unfold create_chunks, pack. change (Packer [] []) with (erase []).
    rewrite pack_erase. unfold erase; simpl. by rewrite <- list_fmap_compose.
  - by rewrite Hperm, sorted_by_size_desc_perm.
  - apply Hne. constructor.
  - intros Hnn. apply Hun.
    + unfold nonneg. by rewrite sorted_by_size_desc_perm.
    + constructor.
    + intros i j g h _ Hi. by rewrite lookup_nil in Hi.
Qed.

(** *** [chunk.sort()] sorts *)

Lemma leb_le x y : String.leb x y = true ↔ String.le x y.
Proof. unfold String.le. by rewrite Is_true_true. Qed.

Lemma insert_str_sorted x l :
  StronglySorted String.le l → StronglySorted String.le (insert_str x l).
Proof.
  induction 1 as [|y l Hl IH Hy]; simpl; [by repeat constructor|].
  destruct (String.leb x y) eqn:E.
  - apply leb_le in E. constructor; [by constructor|].
    constructor; [done|]. eapply Forall_impl; [exact Hy|].
    intros z Hz. by etrans.
  - assert (String.le y x) as Hyx.
    { destruct (stdpp.base.total String.le x y) as [H|H]; [|done].
      apply leb_le in H. congruence. }
    constructor; [done|].
    rewrite (insert_str_perm x l). by constructor.
Qed.

Lemma sort_strings_sorted l : StronglySorted String.le (sort_strings l).
Proof.
  induction l as [|x l IH]; simpl; [constructor | by apply insert_str_sorted].
Qed.

Lemma sort_strings_proper l l' : l ≡ₚ l' → sort_strings l = sort_strings l'.
Proof.
  intros H. apply (StronglySorted_unique String.le);
    [apply sort_strings_sorted..|].
  by rewrite !sort_strings_perm.
Qed.

Lemma length_concat_nonempty {A} (ls : list (list A)) :
  Forall (λ l, l ≠ []) ls → (length ls ≤ length (concat ls))%nat.
Proof.
  induction 1 as [|l ls Hl _ IH]; simpl; [done|].
  rewrite length_app. destruct l; [done|]. simpl. lia.
Qed.

(** X1: every chunk of [create_chunks] holds at least one package and lists
    its packages in ascending order; there are no more chunks than packages
    (and none for no package). *)
Theorem create_chunks_shape packages max_size :
  Forall (λ chunk, chunk ≠ [] ∧ StronglySorted String.le chunk)
         (create_chunks packages max_size) ∧
  (length (create_chunks packages max_size) ≤ length packages)%nat.
Proof.
  destruct (create_chunks_ffd packages max_size) as (gs & -> & Hperm & Hne & _).
  split.
  - apply Forall_fmap. eapply Forall_impl; [exact Hne|].
    intros g Hg. simpl. split; [|apply sort_strings_sorted].
    intros Hnil. apply Hg.
    apply (f_equal length) in Hnil.
    rewrite (Permutation_length (sort_strings_perm _)), length_fmap in Hnil.
    by destruct g.
  - rewrite length_fmap, <- (Permutation_length Hperm).
    by apply length_concat_nonempty.
Qed.

(** X2: no two chunks of [create_chunks] would fit into one: whenever sizes
    are byte counts and paths are distinct, any two chunks together exceed
    the maximum. *)
Theorem create_chunks_no_two_fit packages max_size (i j : nat) c c' :
  nonneg packages → NoDup (packages.*1) → i ≠ j →
  create_chunks packages max_size !! i = Some c →
  create_chunks packages max_size !! j = Some c' →
  max_size < chunk_size packages c + chunk_size packages c'.
Proof.
  intros Hnn Hnd Hij Hi Hj.
  destruct (create_chunks_ffd packages max_size) as (gs & Heq & Hperm & _ & Hun).
  specialize (Hun Hnn). rewrite Heq in Hi, Hj.
  rewrite list_lookup_fmap in Hi, Hj.
  destruct (gs !! i) as [g|] eqn:Hg; simplify_eq/=.
  destruct (gs !! j) as [h|] eqn:Hh; simplify_eq/=.
  assert (∀ (k : nat) g', gs !! k = Some g' →
            chunk_size packages (sort_strings (g'.*1)) = total g') as Hsize.
  { intros k g' Hk.
    rewrite (chunk_size_perm _ _ (g'.*1)) by apply sort_strings_perm.
    apply chunk_size_fst; [done|]. intros x Hx. rewrite <- Hperm.
    apply (elem_of_concat gs g'); [done|]. by eapply list_elem_of_lookup_2. }
  rewrite (Hsize i g Hg), (Hsize j h Hh).
  destruct (decide (i < j)%nat).
  - by apply (Hun i j).
  - rewrite Z.add_comm. apply (Hun j i); [lia|done..].
Qed.

Lemma create_chunks_no_two_fit_witness :
  let packages := [("elm/core", 5); ("elm/json", 4); ("elm/html", 3)] in
  nonneg packages ∧ NoDup (packages.*1) ∧
  create_chunks packages 8 = [["elm/core"; "elm/html"]; ["elm/json"]] ∧
  8 < chunk_size packages ["elm/core"; "elm/html"]
      + chunk_size packages ["elm/json"].
Proof.
  assert (nonneg [("elm/core", 5); ("elm/json", 4); ("elm/html", 3)]) as Hnn
    by (repeat constructor; simpl; lia).
  assert (NoDup ([("elm/core", 5); ("elm/json", 4); ("elm/html", 3)].*1))
    as Hnd by (apply (bool_decide_unpack _); vm_compute; exact I).
  split; [exact Hnn|]. split; [exact Hnd|]. split; [reflexivity|].
  apply (create_chunks_no_two_fit
           [("elm/core", 5); ("elm/json", 4); ("elm/html", 3)] 8 0 1);
    [exact Hnn | exact Hnd | lia | reflexivity | reflexivity].
Defined.

(** X3: packages that fit into one chunk together get one chunk: when the
    sizes are byte counts and add up to the maximum or less, the result is
    the single chunk of all paths, sorted. *)
Theorem create_chunks_single packages max_size :
  nonneg packages → packages ≠ [] → total packages <= max_size →
  create_chunks packages max_size = [sort_strings (packages.*1)].
Proof.
  intros Hnn Hne Htot.
  destruct (create_chunks_ffd packages max_size) as (gs & -> & Hperm & _ & Hun).
  specialize (Hun Hnn).
  assert (Forall (λ g, 0 <= total g) gs) as Hpos.
  { apply Forall_forall. intros g Hg. apply total_nonneg.
    by apply (groups_nonneg packages gs). }
  destruct gs as [|g [|h gs]].
  - simpl in Hperm. apply Permutation_nil_l in Hperm. by subst.
  - simpl in *. rewrite app_nil_r in Hperm.
    f_equal. apply sort_strings_proper. by apply fmap_Permutation.
  - exfalso. pose proof (Hun 0%nat 1%nat g h) as H. simpl in H.
    specialize (H ltac:(lia) eq_refl eq_refl).
    rewrite <- (total_perm _ _ Hperm) in Htot. simpl in Htot.
    rewrite !total_app in Htot.
    apply Forall_cons in Hpos as [_ [_ Hpos]%Forall_cons].
    assert (0 <= total (concat gs)); [|lia].
    clear -Hpos. induction Hpos; simpl; [lia|]. rewrite total_app. lia.
Qed.

Lemma create_chunks_single_witness :
  create_chunks [("elm/json", 4); ("elm/core", 3)] 8 = [["elm/core"; "elm/json"]].
Proof.
  apply (create_chunks_single [("elm/json", 4); ("elm/core", 3)] 8).
  - repeat constructor; simpl; lia.
  - discriminate.
  - simpl. lia.
Defined.

(** *** How many chunks *)

Lemma total_concat gs : total (concat gs) = foldr (λ g acc, total g + acc) 0 gs.
Proof.
  induction gs as [|g gs IH]; simpl; [done|]. by rewrite total_app, IH.
Qed.

Lemma unmergeable_tail max_size g gs :
  unmergeable max_size (g :: gs) → unmergeable max_size gs.
Proof. intros H i j g1 g2 Hij H1 H2. apply (H (S i) (S j)); [lia|done..]. Qed.

Lemma unmergeable_sum max_size g gs :
  Forall (λ g, 0 <= total g) (g :: gs) →
  unmergeable max_size (g :: gs) →
  Z.of_nat (length gs) * max_size + total g
  <= 2 * foldr (λ g acc, total g + acc) 0 (g :: gs).
Proof.
  revert g. induction gs as [|h gs IH]; intros g Hnn Hun.
  - apply Forall_cons in Hnn as [? _]. simpl. lia.
  - pose proof (Hun 0%nat 1%nat g h ltac:(lia) eq_refl eq_refl) as Hgh.
    apply Forall_cons in Hnn as [Hg Hnn].
    specialize (IH h Hnn (unmergeable_tail _ _ _ Hun)).
    cbn [length foldr] in *. lia.
Qed.

(** X14: first-fit does not waste chunks: when sizes are byte counts and
    [create_chunks] makes [k >= 2] chunks, [(k - 1) * max_size] is less than
    twice the total size of the packages. *)
Theorem create_chunks_count packages max_size :
  nonneg packages →
  (2 ≤ length (create_chunks packages max_size))%nat →
  (Z.of_nat (length (create_chunks packages max_size)) - 1) * max_size
  < 2 * total packages.
Proof.
  intros Hnn Hk.
  destruct (create_chunks_ffd packages max_size) as (gs & Heq & Hperm & _ & Hun).
  specialize (Hun Hnn). rewrite Heq, length_fmap in *.
  assert (Forall (λ g, 0 <= total g) gs) as Hpos.
  { apply Forall_forall. intros g Hg. apply total_nonneg.
    by apply (groups_nonneg packages gs). }
  rewrite <- (total_perm _ _ Hperm), total_concat.
  destruct gs as [|g [|h gs]]; simpl in Hk; [lia..|].
  pose proof (unmergeable_sum max_size h gs
                ltac:(by apply Forall_cons in Hpos as [_ ?])
                (unmergeable_tail _ _ _ Hun)) as Hsum.
  pose proof (Hun 0%nat 1%nat g h ltac:(lia) eq_refl eq_refl) as Hgh.
  apply Forall_cons in Hpos as [Hg _].
  cbn [length foldr] in *. lia.
Qed.

Lemma create_chunks_count_witness :
  let packages := [("elm/core", 5); ("elm/json", 4); ("elm/html", 3)] in
  (Z.of_nat (length (create_chunks packages 8)) - 1) * 8 < 2 * total packages.
Proof.
  apply (create_chunks_count [("elm/core", 5); ("elm/json", 4); ("elm/html", 3)] 8).
  - repeat constructor; simpl; lia.
  - vm_compute. lia.
Defined.

End SplitMirrorPacking.

(** ** Properties of split_mirror.py on a file system *)

Module SplitMirrorMainSpec.
Import BackfillDocs SplitMirror SplitMirrorMain.
Import SplitMirrorSpec BackfillDocsSpec SplitMirrorPacking.

Implicit Types (m : files) (d p q : path) (l : list path).

Lemma insert_path_perm (x : path) l : insert_path x l ≡ₚ x :: l.
Proof.
  induction l as [|y l IH]; simpl; [done|].
  destruct (path_leb x y); [done|]. rewrite IH. apply perm_swap.
Qed.

Lemma sorted_paths_perm l : sorted_paths l ≡ₚ l.
Proof.
  induction l as [|x l IH]; simpl; [done|].
  by rewrite insert_path_perm, IH.
Qed.

Lemma elem_of_sorted_iterdir m d p :
  p ∈ sorted_paths (iterdir m d) ↔ (∃ x, p = d ++ [x]) ∧ is_Some (m !! p).
Proof. by rewrite sorted_paths_perm, elem_of_iterdir. Qed.

Lemma st_size_nonneg m p : 0 <= st_size m p.
Proof. unfold st_size. destruct (m !! p) as [[c|]|]; lia. Qed.

Lemma get_dir_size_nonneg m d : 0 <= get_dir_size m d.
Proof.
  unfold get_dir_size.
  assert (∀ l acc, 0 <= acc →
            0 <= fold_left (λ total entry,
                    if is_file m entry then total + st_size m entry else total)
                  l acc) as H.
  { induction l as [|e l IH]; intros acc Hacc; simpl; [done|].
    apply IH. pose proof (st_size_nonneg m e). destruct (is_file m e); lia. }
  by apply H.
Qed.

(** The package directories: the directories two levels below
    [packages_dir], below a directory. *)
Definition package_dir m d (author name : string) : Prop :=
  m !! (d ++ [author]) = Some Dir ∧ m !! (d ++ [author; name]) = Some Dir.

Lemma elem_of_get_packages_with_sizes m d (pp : string) (size : Z) :
  (pp, size) ∈ get_packages_with_sizes m d ↔
  ∃ author name, package_dir m d author name ∧
                 pp = author +:+ "/" +:+ name ∧
                 size = get_dir_size m (d ++ [author; name]).
Proof.
  unfold get_packages_with_sizes, package_dir. rewrite list_elem_of_bind. split.
  - intros (ad & Hpk & Had). apply elem_of_sorted_iterdir in Had as [[a ->] _].
    destruct (is_dir m (d ++ [a])) eqn:Ea; [|by apply elem_of_nil in Hpk].
    simpl in Hpk. apply list_elem_of_bind in Hpk as (nd & Hpk & Hnd).
    apply elem_of_sorted_iterdir in Hnd as [[n ->] _].
    destruct (is_dir m ((d ++ [a]) ++ [n])) eqn:En;
      [|by apply elem_of_nil in Hpk].
    simpl in Hpk. apply list_elem_of_singleton in Hpk as [= -> ->].
    rewrite !name_of_snoc. apply is_dir_true in Ea, En.
    rewrite <- !app_assoc in *. simpl in *. by exists a, n.
  - intros (a & n & [Ha Hn] & -> & ->).
    exists (d ++ [a]). split.
    2:{ apply elem_of_sorted_iterdir. split; [by eexists | by rewrite Ha]. }
    rewrite (proj2 (is_dir_true _ _) Ha). simpl.
    apply list_elem_of_bind. exists (d ++ [a; n]). split.
    2:{ apply elem_of_sorted_iterdir. split; [|by rewrite Hn].
        exists n. by rewrite <- app_assoc. }
    rewrite (proj2 (is_dir_true _ _) Hn). simpl.
    rewrite name_of_snoc.
    pose proof (name_of_app_snoc d [a] n) as H2. simpl in H2. rewrite H2.
    by left.
Qed.

(** X4: [get_packages_with_sizes] lists exactly the package directories
    (the directories found two levels below [packages_dir]; plain files at
    either level are passed over), each as ["author/name"] with the size of
    the directory; no size is negative. *)
Theorem get_packages_with_sizes_spec m d :
  (∀ pp size,
     (pp, size) ∈ get_packages_with_sizes m d ↔
     ∃ author name, package_dir m d author name ∧
                    pp = author +:+ "/" +:+ name ∧
                    size = get_dir_size m (d ++ [author; name])) ∧
  Forall (λ p : package, 0 <= p.2) (get_packages_with_sizes m d).
Proof.
  split; [apply elem_of_get_packages_with_sizes|].
  apply Forall_forall. intros [pp size] Hin.
  apply elem_of_get_packages_with_sizes in Hin as (a & n & _ & _ & ->).
  apply get_dir_size_nonneg.
Qed.

(** *** Entry names and path strings *)

(** The names a directory entry can have: not empty, not ["."], without
    ["/"]. *)
Fixpoint no_slash (x : string) : bool :=
  match x with
  | EmptyString => true
  | String c x' => negb (Ascii.eqb c "/") && no_slash x'
  end.

Definition valid_name (x : string) : bool :=
  negb (String.eqb x "") && negb (String.eqb x ".") && no_slash x.

(** Every entry of the file system is reached by valid names. *)
Definition well_named m : Prop :=
  map_Forall (λ p _, Forall (λ x, valid_name x = true) p) m.

Lemma split_slash_cons (s : string) : ∃ x xs, split_slash s = x :: xs.
Proof.
  induction s as [|c s (x & xs & IH)]; simpl; [by eauto|].
  destruct (Ascii.eqb c "/"); [by eauto|]. rewrite IH. by eauto.
Qed.

Lemma split_slash_no_slash (x : string) :
  no_slash x = true → split_slash x = [x].
Proof.
  induction x as [|c x IH]; simpl; [done|].
  intros [Hc Hx]%andb_true_iff. apply negb_true_iff in Hc. rewrite Hc.
  by rewrite IH.
Qed.

Lemma split_slash_app (x y : string) :
  split_slash (x +:+ "/" +:+ y) = split_slash x ++ split_slash y.
Proof.
  induction x as [|c x IH].
  - reflexivity.
  - change (String c x +:+ "/" +:+ y) with (String c (x +:+ "/" +:+ y)).
    simpl. rewrite IH. destruct (Ascii.eqb c "/"); [done|].
    by destruct (split_slash_cons x) as (x0 & xs & ->).
Qed.

Lemma parts_package (a n : string) :
  valid_name a = true → valid_name n = true →
  parts (a +:+ "/" +:+ n) = [a; n].
Proof.
  unfold valid_name, parts.
  intros [[Ha1 Ha2]%andb_true_iff Ha3]%andb_true_iff
         [[Hn1 Hn2]%andb_true_iff Hn3]%andb_true_iff.
  rewrite split_slash_app, !split_slash_no_slash by done. simpl.
  by rewrite Ha1, Ha2, Hn1, Hn2.
Qed.

Lemma joinpath_package d (a n : string) :
  valid_name a = true → valid_name n = true →
  joinpath d (a +:+ "/" +:+ n) = d ++ [a; n].
Proof.
  intros Ha Hn. unfold joinpath. rewrite (parts_package a n Ha Hn).
  destruct a as [|c a]; [done|].
  change (String c a +:+ "/" +:+ n) with (String c (a +:+ "/" +:+ n)).
  unfold valid_name in Ha. simpl in Ha.
  destruct (Ascii.eqb_spec c "/") as [->|Hc]; [|by destruct c as [[] [] [] [] [] [] [] []]].
  by rewrite andb_false_r in Ha.
Qed.

Lemma package_path_inj (a n a' n' : string) :
  valid_name a = true → valid_name n = true →
  valid_name a' = true → valid_name n' = true →
  a +:+ "/" +:+ n = a' +:+ "/" +:+ n' → a = a' ∧ n = n'.
Proof.
  intros Ha Hn Ha' Hn' Heq. apply (f_equal parts) in Heq.
  rewrite !parts_package in Heq by done. by injection Heq.
Qed.

Lemma well_named_lookup m p :
  well_named m → is_Some (m !! p) → Forall (λ x, valid_name x = true) p.
Proof. intros Hm [v Hv]. exact (Hm p v Hv). Qed.

Lemma package_dir_valid m d (a n : string) :
  well_named m → package_dir m d a n →
  valid_name a = true ∧ valid_name n = true.
Proof.
  intros Hm [_ Hn].
  pose proof (well_named_lookup m _ Hm (mk_is_Some _ _ Hn)) as H.
  apply Forall_app in H as [_ H].
  apply Forall_cons in H as [Ha H]. by apply Forall_cons in H as [? _].
Qed.

(** *** The listing has no duplicates *)

Lemma NoDup_iterdir m d : NoDup (iterdir m d).
Proof. unfold iterdir. apply NoDup_filter, NoDup_fst_map_to_list. Qed.

Lemma NoDup_sorted_iterdir m d : NoDup (sorted_paths (iterdir m d)).
Proof. rewrite sorted_paths_perm. apply NoDup_iterdir. Qed.

Lemma get_packages_with_sizes_fun m d (pp : string) (s s' : Z) :
  well_named m →
  (pp, s) ∈ get_packages_with_sizes m d →
  (pp, s') ∈ get_packages_with_sizes m d → s = s'.
Proof.
  intros Hm (a & n & Hd & -> & ->)%elem_of_get_packages_with_sizes
            (a' & n' & Hd' & Heq & ->)%elem_of_get_packages_with_sizes.
  destruct (package_dir_valid m d a n Hm Hd) as [Ha Hn].
  destruct (package_dir_valid m d a' n' Hm Hd') as [Ha' Hn'].
  by destruct (package_path_inj a n a' n' Ha Hn Ha' Hn' Heq) as [-> ->].
Qed.

Lemma NoDup_get_packages_with_sizes m d :
  well_named m → NoDup (get_packages_with_sizes m d).*1.
Proof.
  intros Hm. apply NoDup_fmap_2_strong.
  { intros [pp s] [pp' s'] H1 H2 [= <-]. f_equal.
    by eapply get_packages_with_sizes_fun. }
  unfold get_packages_with_sizes. apply NoDup_bind.
  - intros ad1 ad2 [pp s] [[a1 ->] Hs1]%elem_of_sorted_iterdir
                          [[a2 ->] Hs2]%elem_of_sorted_iterdir H1 H2.
    destruct (is_dir m (d ++ [a1])) eqn:E1; [|by apply elem_of_nil in H1].
    destruct (is_dir m (d ++ [a2])) eqn:E2; [|by apply elem_of_nil in H2].
    simpl in H1, H2.
    apply list_elem_of_bind in H1 as (nd1 & H1 & [[n1 ->] Hn1]%elem_of_sorted_iterdir).
    apply list_elem_of_bind in H2 as (nd2 & H2 & [[n2 ->] Hn2]%elem_of_sorted_iterdir).
    destruct (is_dir m ((d ++ [a1]) ++ [n1])); [|by apply elem_of_nil in H1].
    destruct (is_dir m ((d ++ [a2]) ++ [n2])); [|by apply elem_of_nil in H2].
    simpl in H1, H2.
    apply list_elem_of_singleton in H1 as [= -> _].
    apply list_elem_of_singleton in H2 as [= Heq _].
    rewrite !name_of_snoc in Heq.
    pose proof (well_named_lookup m _ Hm Hn1) as V1.
    pose proof (well_named_lookup m _ Hm Hn2) as V2.
    apply Forall_app in V1 as [[_ [V1a _]%Forall_cons]%Forall_app
                                 [V1n _]%Forall_cons].
    apply Forall_app in V2 as [[_ [V2a _]%Forall_cons]%Forall_app
                                 [V2n _]%Forall_cons].
    by destruct (package_path_inj a1 n1 a2 n2 V1a V1n V2a V2n Heq) as [-> _].
  - intros ad _. destruct (is_dir m ad); simpl; [|constructor].
    apply NoDup_bind.
    + intros nd1 nd2 [pp s] [[n1 ->] _]%elem_of_sorted_iterdir
                            [[n2 ->] _]%elem_of_sorted_iterdir H1 H2.
      destruct (is_dir m (ad ++ [n1])); [|by apply elem_of_nil in H1].
      destruct (is_dir m (ad ++ [n2])); [|by apply elem_of_nil in H2].
      simpl in H1, H2.
      apply list_elem_of_singleton in H1 as [= -> _].
      apply list_elem_of_singleton in H2 as [= Heq _].
      rewrite !name_of_snoc in Heq. by simplify_eq.
    + intros nd _. destruct (is_dir m nd); simpl; [|constructor].
      apply NoDup_singleton.
    + apply NoDup_sorted_iterdir.
  - apply NoDup_sorted_iterdir.
Qed.

(** How [main] finds a listed package again from its path string. *)
Lemma listed_package m d (pp : string) :
  well_named m → pp ∈ (get_packages_with_sizes m d).*1 →
  exists_ m (joinpath d pp) = true ∧
  get_dir_size m (joinpath d pp)
  = size_of (get_packages_with_sizes m d) pp.
Proof.
  intros Hm ([pp' s] & -> & Hin)%list_elem_of_fmap. simpl.
  rewrite (size_of_elem_of _ pp' s);
    [|by apply NoDup_get_packages_with_sizes|done].
  apply elem_of_get_packages_with_sizes in Hin as (a & n & Hd & -> & ->).
  destruct (package_dir_valid m d a n Hm Hd) as [Ha Hn].
  rewrite (joinpath_package d a n Ha Hn). split; [|done].
  apply exists_true. destruct Hd as [_ ->]. by eexists.
Qed.

(** *** The archives of [main] *)

Lemma chunk_size_bound packages max_size chunk :
  NoDup (packages.*1) → chunk ∈ create_chunks packages max_size →
  chunk_size packages chunk <= max_size ∨ ∃ path, chunk = [path].
Proof.
  intros Hnd Hc.
  destruct (create_chunks_groups packages max_size) as (gs & Heq & Hperm & Hb).
  rewrite Heq in Hc. apply list_elem_of_fmap in Hc as (g & -> & Hg).
  rewrite Forall_forall in Hb. destruct (Hb g Hg) as [Hle|(p0 & -> & _)].
  - left. rewrite (chunk_size_perm _ _ (g.*1)) by apply sort_strings_perm.
    rewrite chunk_size_fst; [done..|].
    intros x Hx. rewrite <- Hperm. by apply (elem_of_concat gs g).
  - right. by exists p0.1.
Qed.

Lemma chunk_listed packages max_size chunk (pp : string) :
  chunk ∈ create_chunks packages max_size → pp ∈ chunk → pp ∈ packages.*1.
Proof.
  intros Hc Hpp. rewrite <- (create_chunks_perm packages max_size).
  by apply (elem_of_concat _ chunk).
Qed.

Lemma filter_all {A} (f : A → bool) (l : list A) :
  (∀ x, x ∈ l → f x = true) → List.filter f l = l.
Proof.
  induction l as [|x l IH]; intros H; simpl; [done|].
  rewrite (H x) by by left. f_equal. apply IH. intros y Hy. apply H. by right.
Qed.

Section Main.
Context (mirror_dir : path) (date_str : string) (m : files).

Let packages_dir := mirror_dir ++ ["packages"].
Let packages := get_packages_with_sizes m packages_dir.
Let chunks := create_chunks packages MAX_CHUNK_SIZE.

Lemma main_runs :
  exists_ m mirror_dir = true → m !! packages_dir = Some Dir →
  main mirror_dir date_str m
  = (Exit 0,
     Archive ("mirror-" +:+ date_str +:+ "-metadata.tar.gz")
       (create_metadata_tar_gz m mirror_dir metadata_files)
       (foldr (λ f acc, get_file_size m (joinpath mirror_dir f) + acc) 0
          (List.filter (λ f, exists_ m (joinpath mirror_dir f)) metadata_files))
     :: imap (λ i chunk_packages,
                packages_archive m mirror_dir date_str (S i) chunk_packages)
             chunks).
Proof.
  intros Hm Hp. unfold main. rewrite Hm. simpl.
  fold packages_dir. unfold exists_, is_dir. by rewrite Hp.
Qed.

Lemma archive_members (i : nat) chunk :
  well_named m → chunk ∈ chunks →
  members (packages_archive m mirror_dir date_str i chunk)
  = (λ pp, "mirror/packages/" +:+ pp) <$> chunk.
Proof.
  intros Hm Hc. unfold packages_archive, create_packages_tar_gz. simpl.
  rewrite filter_all; [done|]. intros pp Hpp.
  apply (listed_package m packages_dir pp Hm).
  by apply (chunk_listed packages MAX_CHUNK_SIZE chunk).
Qed.

Lemma archive_size (i : nat) chunk :
  well_named m → chunk ∈ chunks →
  uncompressed_size (packages_archive m mirror_dir date_str i chunk)
  = chunk_size packages chunk.
Proof.
  intros Hm Hc. unfold packages_archive. simpl.
  assert (∀ pp, pp ∈ chunk → pp ∈ packages.*1) as Hin
    by (intros pp; by apply (chunk_listed packages MAX_CHUNK_SIZE chunk)).
  clear Hc. induction chunk as [|pp chunk IH]; simpl; [done|].
  rewrite IH by (intros x Hx; apply Hin; by right).
  f_equal. apply (listed_package m packages_dir pp Hm). apply Hin. by left.
Qed.

End Main.

(** X5: on a mirror with a packages directory, [main] first writes the
    metadata archive [mirror-<date>-metadata.tar.gz], whose members are
    those of [all-packages] and [registry.json] that exist and whose
    reported size is the sum of their sizes, and then the packages
    archives, in which every package directory of the mirror is a member
    of exactly one archive; no packages archive is empty, and every one has
    a reported uncompressed size within [MAX_CHUNK_SIZE] or holds a single
    package. *)
Theorem main_bundles (mirror_dir : path) (date_str : string) m :
  well_named m →
  exists_ m mirror_dir = true →
  m !! (mirror_dir ++ ["packages"]) = Some Dir →
  ∃ metadata bundles,
    main mirror_dir date_str m = (Exit 0, metadata :: bundles) ∧
    file_name metadata = "mirror-" +:+ date_str +:+ "-metadata.tar.gz" ∧
    members metadata
    = (λ f, "mirror/" +:+ f)
        <$> List.filter (λ f, exists_ m (mirror_dir ++ [f]))
                        ["all-packages"; "registry.json"] ∧
    uncompressed_size metadata
    = foldr (λ f acc, get_file_size m (mirror_dir ++ [f]) + acc) 0
        (List.filter (λ f, exists_ m (mirror_dir ++ [f]))
                     ["all-packages"; "registry.json"]) ∧
    concat (members <$> bundles)
    ≡ₚ (λ pp, "mirror/packages/" +:+ pp)
         <$> (get_packages_with_sizes m (mirror_dir ++ ["packages"])).*1 ∧
    NoDup (concat (members <$> bundles)) ∧
    Forall (λ b, members b ≠ [] ∧
                 (uncompressed_size b <= MAX_CHUNK_SIZE ∨
                  ∃ x, members b = [x]))
           bundles.
Proof.
  intros Hm He Hd.
  set (packages := get_packages_with_sizes m (mirror_dir ++ ["packages"])).
  set (chunks := create_chunks packages MAX_CHUNK_SIZE).
  pose proof (NoDup_get_packages_with_sizes m (mirror_dir ++ ["packages"]) Hm)
    as Hnd. fold packages in Hnd.
  eexists _, _. split; [by apply main_runs|]. fold packages chunks.
  cbn [file_name members uncompressed_size].
  assert (joinpath mirror_dir "all-packages" = mirror_dir ++ ["all-packages"])
    as Hj1 by reflexivity.
  assert (joinpath mirror_dir "registry.json" = mirror_dir ++ ["registry.json"])
    as Hj2 by reflexivity.
  split; [done|]. split; [reflexivity|]. split.
  { unfold metadata_files. cbn [List.filter]. rewrite Hj1, Hj2.
    destruct (exists_ m (mirror_dir ++ ["all-packages"])),
      (exists_ m (mirror_dir ++ ["registry.json"]));
      cbn [foldr]; by rewrite ?Hj1, ?Hj2. }
  assert (members <$> imap (λ i chunk_packages,
              packages_archive m mirror_dir date_str (S i) chunk_packages) chunks
          = (λ c : list string, (λ pp, "mirror/packages/" +:+ pp) <$> c)
              <$> chunks) as Hmem.
  { rewrite fmap_imap. rewrite <- imap_const. apply imap_ext.
    intros i chunk Hi.
    apply (archive_members mirror_dir date_str m (S i) chunk); [done|].
    by eapply list_elem_of_lookup_2. }
  assert (concat ((λ c : list string,
                     (λ pp, "mirror/packages/" +:+ pp) <$> c) <$> chunks)
          ≡ₚ (λ pp, "mirror/packages/" +:+ pp) <$> packages.*1) as Hperm.
  { rewrite <- (create_chunks_perm packages MAX_CHUNK_SIZE). fold chunks.
    clear. induction chunks as [|c cs IH]; simpl; [done|].
    by rewrite fmap_app, IH. }
  rewrite Hmem. split; [exact Hperm|]. split.
  - rewrite Hperm. by apply (NoDup_fmap_2 _).
  - apply Forall_forall. intros b Hb.
    apply elem_of_lookup_imap in Hb as (i & chunk & -> & Hi).
    apply list_elem_of_lookup_2 in Hi.
    rewrite (archive_members mirror_dir date_str m (S i) chunk),
      (archive_size mirror_dir date_str m (S i) chunk) by done.
    destruct (create_chunks_ffd packages MAX_CHUNK_SIZE)
      as (gs & Heq & _ & Hne & _).
    split.
    + fold chunks in Heq. rewrite Heq in Hi.
      apply list_elem_of_fmap in Hi as (g & -> & Hg).
      rewrite Forall_forall in Hne. specialize (Hne g Hg).
      intros Hnil. apply (f_equal length) in Hnil.
      rewrite length_fmap, (Permutation_length (sort_strings_perm _)),
        length_fmap in Hnil.
      by destruct g.
    + destruct (chunk_size_bound packages MAX_CHUNK_SIZE chunk Hnd Hi)
        as [Hle|[path ->]]; [by left|]. right. by eexists.
Qed.

(** *** The names of the archives *)

Lemma list_ascii_of_string_app (x y : string) :
  list_ascii_of_string (x +:+ y)
  = list_ascii_of_string x ++ list_ascii_of_string y.
Proof.
  induction x as [|c x IH]; [done|].
  change (String c x +:+ y) with (String c (x +:+ y)). simpl. by rewrite IH.
Qed.

Lemma list_ascii_of_string_inj (x y : string) :
  list_ascii_of_string x = list_ascii_of_string y → x = y.
Proof.
  intros H. rewrite <- (string_of_list_ascii_of_string x),
    <- (string_of_list_ascii_of_string y). by rewrite H.
Qed.

Lemma app_inv_suffix (x y s : string) : x +:+ s = y +:+ s → x = y.
Proof.
  intros H. apply list_ascii_of_string_inj.
  apply (f_equal list_ascii_of_string) in H.
  rewrite !list_ascii_of_string_app in H. by apply app_inv_tail in H.
Qed.

Lemma packages_archive_name_inj (prefix : string) (i j : nat) :
  prefix +:+ "-packages-" +:+ pretty i +:+ ".tar.gz"
  = prefix +:+ "-packages-" +:+ pretty j +:+ ".tar.gz" → i = j.
Proof.
  intros H. apply (inj (String.app prefix)) in H.
  apply (inj (String.app "-packages-")) in H.
  apply app_inv_suffix in H. by apply (inj pretty) in H.
Qed.

Lemma metadata_archive_name_ne (prefix rest : string) :
  prefix +:+ "-metadata.tar.gz" ≠ prefix +:+ "-packages-" +:+ rest.
Proof.
  intros H. apply (inj (String.app prefix)) in H.
  change ("-packages-" +:+ rest)
    with (String "-" (String "p" ("ackages-" +:+ rest))) in H.
  discriminate H.
Qed.

(** X6: the archives one run of [main] writes have pairwise different file
    names: no archive overwrites another. *)
Theorem main_archive_names (mirror_dir : path) (date_str : string) m :
  NoDup (file_name <$> (main mirror_dir date_str m).2).
Proof.
  unfold main.
  destruct (exists_ m mirror_dir); simpl; [|constructor].
  destruct (exists_ m (mirror_dir ++ ["packages"])); simpl; [|constructor].
  destruct (is_dir m (mirror_dir ++ ["packages"])); simpl; [|constructor].
  set (chunks := create_chunks _ _). clearbody chunks.
  rewrite fmap_imap. apply NoDup_cons. split.
  - intros (i & chunk & Heq & _)%elem_of_lookup_imap. simpl in Heq.
    apply (inj (String.app "mirror-")) in Heq.
    by apply metadata_archive_name_ne in Heq.
  - apply NoDup_alt. intros i j name Hi Hj.
    rewrite list_lookup_imap in Hi, Hj.
    destruct (chunks !! i) as [ci|]; [|done].
    destruct (chunks !! j) as [cj|]; [|done]. simpl in Hi, Hj.
    apply (inj Some) in Hi, Hj. rewrite <- Hi in Hj.
    apply (inj (String.app "mirror-")) in Hj.
    apply packages_archive_name_inj in Hj. lia.
Qed.

(** *** Directory sizes *)

Definition entry_size m (e : path) : Z :=
  if is_file m e then st_size m e else 0.

Definition sum_sizes m l : Z := foldr (λ e acc, entry_size m e + acc) 0 l.

Lemma get_dir_size_sum m d : get_dir_size m d = sum_sizes m (rglob m d).
Proof.
  unfold get_dir_size, sum_sizes.
  assert (∀ l acc,
            fold_left (λ total entry,
              if is_file m entry then total + st_size m entry else total) l acc
            = acc + foldr (λ e acc, entry_size m e + acc) 0 l) as H.
  { induction l as [|e l IH]; intros acc; simpl; [lia|].
    rewrite IH. unfold entry_size. destruct (is_file m e); lia. }
  rewrite H. lia.
Qed.

Lemma sum_sizes_perm m l l' : l ≡ₚ l' → sum_sizes m l = sum_sizes m l'.
Proof. induction 1; simpl; lia. Qed.

Lemma sum_sizes_ext m m' l :
  (∀ e, e ∈ l → m' !! e = m !! e) → sum_sizes m' l = sum_sizes m l.
Proof.
  induction l as [|e l IH]; intros H; simpl; [done|].
  rewrite IH by (intros x Hx; apply H; by right).
  f_equal. unfold entry_size, is_file, st_size. by rewrite H by by left.
Qed.

Lemma elem_of_rglob m d p :
  p ∈ rglob m d ↔ (d `prefix_of` p ∧ p ≠ d) ∧ is_Some (m !! p).
Proof.
  unfold rglob. rewrite list_elem_of_filter.
  apply and_iff_compat_l. rewrite list_elem_of_fmap. split.
  - intros ([q n] & -> & Hq). apply elem_of_map_to_list in Hq. by exists n.
  - intros [n Hn]. exists (p, n). split; [done|]. by apply elem_of_map_to_list.
Qed.

(** X7: [get_dir_size] counts the bytes of the files below the directory
    and nothing else: a new file of [n] bytes adds [n] to the size of every
    directory it lies below, and leaves the size of any other directory as
    it was. *)
Theorem get_dir_size_insert m d p (content : string) :
  m !! p = None →
  get_dir_size (<[p := File content]> m) d
  = get_dir_size m d
    + (if decide (d `prefix_of` p ∧ p ≠ d)
       then Z.of_nat (String.length content) else 0).
Proof.
  intros Hp. rewrite !get_dir_size_sum.
  assert (rglob (<[p := File content]> m) d
          ≡ₚ (if decide (d `prefix_of` p ∧ p ≠ d) then [p] else [])
             ++ rglob m d) as Hperm.
  { unfold rglob. rewrite (map_to_list_insert m p (File content)) by done.
    rewrite fmap_cons, filter_cons. simpl. by destruct (decide _). }
  rewrite (sum_sizes_perm _ _ _ Hperm).
  assert (sum_sizes (<[p := File content]> m) (rglob m d)
          = sum_sizes m (rglob m d)) as Hrest.
  { apply sum_sizes_ext. intros e [_ He]%elem_of_rglob.
    apply lookup_insert_ne. intros ->. rewrite Hp in He. by destruct He. }
  destruct (decide _); simpl; rewrite Hrest; [|lia].
  unfold entry_size, is_file, st_size. rewrite lookup_insert_eq. lia.
Qed.

Lemma get_dir_size_insert_witness :
  get_dir_size
    (<[ ["srv"; "mirror"; "packages"; "elm"; "core"; "1.0.5"; "docs.json"]
        := File "[1, 2]" ]> sample_disk)
    ["srv"; "mirror"; "packages"; "elm"; "core"]
  = get_dir_size sample_disk ["srv"; "mirror"; "packages"; "elm"; "core"] + 6.
Proof.
  rewrite (get_dir_size_insert sample_disk
             ["srv"; "mirror"; "packages"; "elm"; "core"]
             ["srv"; "mirror"; "packages"; "elm"; "core"; "1.0.5"; "docs.json"]
             "[1, 2]"); reflexivity.
Defined.

Lemma main_bundles_witness :
  well_named sample_disk ∧
  ∃ metadata bundles,
    main ["srv"; "mirror"] "20260101" sample_disk
    = (Exit 0, metadata :: bundles) ∧
    file_name metadata = "mirror-20260101-metadata.tar.gz" ∧
    NoDup (concat (members <$> bundles)).
Proof.
  assert (well_named sample_disk) as Hm
    by (apply (bool_decide_unpack _); vm_compute; exact I).
  assert (exists_ sample_disk ["srv"; "mirror"] = true) as He
    by reflexivity.
  assert (sample_disk !! (["srv"; "mirror"] ++ ["packages"]) = Some Dir)
    as Hd by reflexivity.
  split; [exact Hm|].
  destruct (main_bundles ["srv"; "mirror"] "20260101" sample_disk Hm He Hd)
    as (metadata & bundles & H1 & H2 & _ & _ & _ & H3 & _).
  exists metadata, bundles. split; [exact H1|]. split; [exact H2 | exact H3].
Defined.

Example sample_main :
  main ["srv"; "mirror"] "20260101" sample_disk
  = (Exit 0,
     [Archive "mirror-20260101-metadata.tar.gz"
        ["mirror/all-packages"; "mirror/registry.json"] 4;
      Archive "mirror-20260101-packages-1.tar.gz"
        ["mirror/packages/elm/browser"; "mirror/packages/elm/core";
         "mirror/packages/elm/html"; "mirror/packages/elm/json"] 8]).
Proof. vm_compute. reflexivity. Qed.

(** *** The order of the listing *)

Definition path_le (p q : path) : Prop := path_leb p q = true.

Lemma string_leb_trans (x y z : string) :
  String.leb x y = true → String.leb y z = true → String.leb x z = true.
Proof. rewrite !leb_le. apply transitivity. Qed.

Lemma path_leb_total p q : path_leb p q = false → path_leb q p = true.
Proof.
  revert q. induction p as [|x p IH]; intros [|y q]; simpl; try done.
  rewrite (String.eqb_sym y x).
  destruct (String.eqb x y); [apply IH|].
  intros H. by destruct (String.leb_total x y) as [H'|H']; [congruence|].
Qed.

Lemma path_leb_trans p q r :
  path_leb p q = true → path_leb q r = true → path_leb p r = true.
Proof.
  revert q r. induction p as [|x p IH]; intros [|y q] [|z r]; simpl; try done.
  destruct (String.eqb_spec x y) as [->|Hxy].
  - destruct (String.eqb y z); [apply IH | done].
  - destruct (String.eqb_spec y z) as [->|Hyz].
    + intros H _. by destruct (String.eqb_spec x z).
    + intros H1 H2. destruct (String.eqb_spec x z) as [->|Hxz].
      * destruct Hxy. by apply String.leb_antisym.
      * by apply (string_leb_trans x y z).
Qed.

Lemma insert_path_sorted (x : path) l :
  StronglySorted path_le l → StronglySorted path_le (insert_path x l).
Proof.
  induction 1 as [|y l Hl IH Hy]; simpl; [by repeat constructor|].
  destruct (path_leb x y) eqn:E.
  - constructor; [by constructor|]. constructor; [done|].
    eapply Forall_impl; [exact Hy|]. intros z Hz.
    by apply (path_leb_trans x y z).
  - constructor; [done|]. rewrite (insert_path_perm x l).
    constructor; [by apply path_leb_total | done].
Qed.

Lemma sorted_paths_sorted l : StronglySorted path_le (sorted_paths l).
Proof.
  induction l as [|x l IH]; simpl; [constructor | by apply insert_path_sorted].
Qed.

Lemma StronglySorted_strict l :
  StronglySorted path_le l → NoDup l →
  StronglySorted (λ p q, path_le p q ∧ p ≠ q) l.
Proof.
  induction 1 as [|x l Hl IH Hx]; intros Hnd; [constructor|].
  apply NoDup_cons in Hnd as [Hx' Hnd]. constructor; [by apply IH|].
  apply Forall_forall. intros y Hy. split.
  - by eapply Forall_forall in Hx.
  - by intros ->.
Qed.

Lemma StronglySorted_bind {A B} (R' : relation A) (R : relation B)
    (f : A → list B) (l : list A) :
  StronglySorted R' l →
  (∀ x, x ∈ l → StronglySorted R (f x)) →
  (∀ x1 x2 y1 y2, x1 ∈ l → x2 ∈ l → R' x1 x2 →
                  y1 ∈ f x1 → y2 ∈ f x2 → R y1 y2) →
  StronglySorted R (l ≫= f).
Proof.
  induction 1 as [|x l Hl IH Hx]; intros Hf Hcross; [constructor|].
  change ((x :: l) ≫= f) with (f x ++ (l ≫= f)).
  apply StronglySorted_app. split; [|split].
  - intros y1 y2 Hy1 (x2 & Hy2 & Hx2)%list_elem_of_bind.
    apply (Hcross x x2); [by left | by right | | done..].
    by eapply Forall_forall in Hx.
  - apply Hf. by left.
  - apply IH.
    + intros x' Hx'. apply Hf. by right.
    + intros x1 x2 y1 y2 H1 H2. apply Hcross; by right.
Qed.

Lemma path_leb_siblings d (x y : string) :
  path_leb (d ++ [x]) (d ++ [y]) = true → x ≠ y → String.leb x y = true.
Proof.
  intros H Hne. induction d as [|z d IH]; simpl in H.
  - by destruct (String.eqb_spec x y).
  - rewrite String.eqb_refl in H. by apply IH.
Qed.

(** X15: the listing of [get_packages_with_sizes] is in ascending order of
    author, then of package name, whatever the order in which the
    directories are read. *)
Theorem get_packages_with_sizes_sorted m d :
  well_named m →
  StronglySorted (λ x y : package, path_leb (parts x.1) (parts y.1) = true)
                 (get_packages_with_sizes m d).
Proof.
  intros Hm. unfold get_packages_with_sizes.
  assert (∀ ad (n : string), is_Some (m !! (ad ++ [n])) →
            valid_name n = true) as Hvalid.
  { intros ad n Hn. pose proof (well_named_lookup m _ Hm Hn) as H.
    apply Forall_app in H as [_ H]. by apply Forall_cons in H as [? _]. }
  eapply (StronglySorted_bind (λ p q, path_le p q ∧ p ≠ q)).
  - apply StronglySorted_strict;
      [apply sorted_paths_sorted | apply NoDup_sorted_iterdir].
  - intros ad [[a ->] Ha]%elem_of_sorted_iterdir.
    destruct (is_dir m (d ++ [a])); simpl; [|constructor].
    eapply (StronglySorted_bind (λ p q, path_le p q ∧ p ≠ q)).
    + apply StronglySorted_strict;
        [apply sorted_paths_sorted | apply NoDup_sorted_iterdir].
    + intros nd _. destruct (is_dir m nd); simpl; repeat constructor.
    + intros nd1 nd2 y1 y2 [[n1 ->] Hn1]%elem_of_sorted_iterdir
        [[n2 ->] Hn2]%elem_of_sorted_iterdir [Hle Hne] H1 H2.
      destruct (is_dir m ((d ++ [a]) ++ [n1])); [|by apply elem_of_nil in H1].
      destruct (is_dir m ((d ++ [a]) ++ [n2])); [|by apply elem_of_nil in H2].
      simpl in H1, H2.
      apply list_elem_of_singleton in H1 as ->.
      apply list_elem_of_singleton in H2 as ->. simpl.
      rewrite !name_of_snoc.
      pose proof (Hvalid _ _ Ha) as Va.
      rewrite !parts_package by eauto. simpl.
      rewrite String.eqb_refl.
      assert (n1 ≠ n2) as Hn by (intros ->; by apply Hne).
      destruct (String.eqb_spec n1 n2); [done|].
      by apply (path_leb_siblings (d ++ [a])).
  - intros ad1 ad2 y1 y2 [[a1 ->] Ha1]%elem_of_sorted_iterdir
      [[a2 ->] Ha2]%elem_of_sorted_iterdir [Hle Hne] H1 H2.
    destruct (is_dir m (d ++ [a1])); [|by apply elem_of_nil in H1].
    destruct (is_dir m (d ++ [a2])); [|by apply elem_of_nil in H2].
    simpl in H1, H2.
    apply list_elem_of_bind in H1 as (nd1 & H1 & [[n1 ->] Hn1]%elem_of_sorted_iterdir).
    apply list_elem_of_bind in H2 as (nd2 & H2 & [[n2 ->] Hn2]%elem_of_sorted_iterdir).
    destruct (is_dir m ((d ++ [a1]) ++ [n1])); [|by apply elem_of_nil in H1].
    destruct (is_dir m ((d ++ [a2]) ++ [n2])); [|by apply elem_of_nil in H2].
    simpl in H1, H2.
    apply list_elem_of_singleton in H1 as ->.
    apply list_elem_of_singleton in H2 as ->. simpl.
    rewrite !name_of_snoc. rewrite !parts_package by eauto. simpl.
    assert (a1 ≠ a2) as Hn by (intros ->; by apply Hne).
    destruct (String.eqb_spec a1 a2); [done|].
    by apply (path_leb_siblings d).
Qed.

Lemma get_packages_with_sizes_sorted_witness :
  well_named sample_disk ∧
  (get_packages_with_sizes sample_disk ["srv"; "mirror"; "packages"]).*1
  = ["elm/browser"; "elm/core"; "elm/html"; "elm/json"] ∧
  StronglySorted (λ x y : package, path_leb (parts x.1) (parts y.1) = true)
    (get_packages_with_sizes sample_disk ["srv"; "mirror"; "packages"]).
Proof.
  assert (well_named sample_disk) as Hm
    by (apply (bool_decide_unpack _); vm_compute; exact I).
  split; [exact Hm|]. split; [reflexivity|].
  exact (get_packages_with_sizes_sorted sample_disk
           ["srv"; "mirror"; "packages"] Hm).
Defined.

End SplitMirrorMainSpec.

(** ** Further properties of the docs back-fill utility *)

Module BackfillDocsRuns.
Import BackfillDocs BackfillDocsSpec.

Implicit Types (m : files) (d p q : path) (pk : pkg) (pks : list pkg).
Implicit Types (st : run) (delay : Q) (n i : nat) (a : args).

(** *** The selection has no duplicates *)

Lemma find_packages_docs_path m d pk :
  pk ∈ find_packages m d →
  docs_path pk = d ++ [author pk; name pk; version pk; "docs.json"].
Proof. by intros [_ ?]%elem_of_find_packages. Qed.

Lemma find_packages_ident_inj m d pk pk' :
  pk ∈ find_packages m d → pk' ∈ find_packages m d →
  ident pk = ident pk' → pk = pk'.
Proof.
  intros H1%find_packages_docs_path H2%find_packages_docs_path [= Ha Hn Hv].
  destruct pk, pk'; simpl in *. by subst.
Qed.

Lemma iterdir_NoDup m d : NoDup (iterdir m d).
Proof. unfold iterdir. apply NoDup_filter, NoDup_fst_map_to_list. Qed.

Lemma NoDup_find_packages m d : NoDup (find_packages m d).
Proof.
  unfold find_packages. apply NoDup_bind; [| |apply iterdir_NoDup].
  - intros ad1 ad2 pk [[a1 ->] _]%elem_of_iterdir [[a2 ->] _]%elem_of_iterdir
      H1 H2.
    destruct (is_dir m (d ++ [a1])); [|by apply elem_of_nil in H1].
    destruct (is_dir m (d ++ [a2])); [|by apply elem_of_nil in H2].
    simpl in H1, H2.
    apply list_elem_of_bind in H1 as (nd1 & H1 & [[n1 ->] _]%elem_of_iterdir).
    apply list_elem_of_bind in H2 as (nd2 & H2 & [[n2 ->] _]%elem_of_iterdir).
    destruct (is_dir m ((d ++ [a1]) ++ [n1])); [|by apply elem_of_nil in H1].
    destruct (is_dir m ((d ++ [a2]) ++ [n2])); [|by apply elem_of_nil in H2].
    simpl in H1, H2.
    apply list_elem_of_bind in H1 as (vd1 & H1 & [[v1 ->] _]%elem_of_iterdir).
    apply list_elem_of_bind in H2 as (vd2 & H2 & [[v2 ->] _]%elem_of_iterdir).
    destruct (is_dir m _); [|by apply elem_of_nil in H1].
    destruct (is_dir m (((d ++ [a2]) ++ [n2]) ++ [v2]));
      [|by apply elem_of_nil in H2].
    simpl in H1, H2.
    destruct (_ && _); [|by apply elem_of_nil in H1].
    destruct (_ && _); [|by apply elem_of_nil in H2].
    apply list_elem_of_singleton in H1, H2. subst pk.
    apply (f_equal author) in H2. simpl in H2.
    rewrite !name_of_snoc in H2. by subst.
  - intros ad _. destruct (is_dir m ad); simpl; [|constructor].
    apply NoDup_bind; [| |apply iterdir_NoDup].
    + intros nd1 nd2 pk [[n1 ->] _]%elem_of_iterdir [[n2 ->] _]%elem_of_iterdir
        H1 H2.
      destruct (is_dir m (ad ++ [n1])); [|by apply elem_of_nil in H1].
      destruct (is_dir m (ad ++ [n2])); [|by apply elem_of_nil in H2].
      simpl in H1, H2.
      apply list_elem_of_bind in H1 as (vd1 & H1 & [[v1 ->] _]%elem_of_iterdir).
      apply list_elem_of_bind in H2 as (vd2 & H2 & [[v2 ->] _]%elem_of_iterdir).
      destruct (is_dir m _); [|by apply elem_of_nil in H1].
      destruct (is_dir m ((ad ++ [n2]) ++ [v2]));
        [|by apply elem_of_nil in H2].
      simpl in H1, H2.
      destruct (_ && _); [|by apply elem_of_nil in H1].
      destruct (_ && _); [|by apply elem_of_nil in H2].
      apply list_elem_of_singleton in H1, H2. subst pk.
      apply (f_equal name) in H2. simpl in H2.
      rewrite !name_of_snoc in H2. by subst.
    + intros nd _. destruct (is_dir m nd); simpl; [|constructor].
      apply NoDup_bind; [| |apply iterdir_NoDup].
      * intros vd1 vd2 pk [[v1 ->] _]%elem_of_iterdir
          [[v2 ->] _]%elem_of_iterdir H1 H2.
        destruct (is_dir m (nd ++ [v1])); [|by apply elem_of_nil in H1].
        destruct (is_dir m (nd ++ [v2])); [|by apply elem_of_nil in H2].
        simpl in H1, H2.
        destruct (_ && _); [|by apply elem_of_nil in H1].
        destruct (_ && _); [|by apply elem_of_nil in H2].
        apply list_elem_of_singleton in H1, H2. subst pk.
        apply (f_equal version) in H2. simpl in H2.
        rewrite !name_of_snoc in H2. by subst.
      * intros vd _. destruct (is_dir m vd); simpl; [|constructor].
        destruct (_ && _); [apply NoDup_singleton | constructor].
Qed.

Lemma NoDup_docs_paths m d : NoDup (docs_path <$> find_packages m d).
Proof.
  apply NoDup_fmap_2_strong; [|apply NoDup_find_packages].
  intros pk pk' H1 H2 Heq. apply (find_packages_ident_inj m d); [done..|].
  apply find_packages_docs_path in H1, H2. rewrite H1, H2 in Heq.
  apply app_inv_head in Heq. unfold ident. by injection Heq as -> -> ->.
Qed.

Section Runs.
Context {json : Type} (w : world (json := json)).
Implicit Types (docs : json).

(** X8: no package is requested twice in one run. *)
Theorem backfill_requests_once a m :
  NoDup (fetches (trace (main w a m).2)).
Proof.
  destruct (decide (m !! packages_dir_of a = Some Dir)) as [Hd|Hd];
    [|rewrite main_no_dir by done; constructor].
  destruct (delay_of (rate_limit a)) as [delay|] eqn:Hdelay;
    [|rewrite main_no_delay by done; constructor].
  rewrite (main_dir w a m delay) by done. cbn [snd].
  rewrite final_trace, fetches_loop_events.
  apply NoDup_fmap_2_strong; [|apply NoDup_find_packages].
  intros pk pk' H1 H2.
  by apply (find_packages_ident_inj m (packages_dir_of a)).
Qed.

(** *** What one attempt leaves at the package's [docs.json] *)

Lemma loop_app delay n i (l1 l2 : list pkg) st :
  loop w delay n i (l1 ++ l2) st
  = loop w delay n (i + length l1) l2 (loop w delay n i l1 st).
Proof.
  revert i st. induction l1 as [|pk l1 IH]; intros i st; simpl.
  - by rewrite Nat.add_0_r.
  - rewrite IH. f_equal. lia.
Qed.

Lemma exec_ops_same p (ops : list file_op) m m' :
  m !! p = m' !! p → exec_ops p ops m !! p = exec_ops p ops m' !! p.
Proof.
  unfold exec_ops. revert m m'.
  induction ops as [|op ops IH]; intros m m' H; simpl; [done|].
  apply IH. destruct op as [|chunk|]; simpl; [| |done].
  - by rewrite !lookup_insert_eq.
  - rewrite H. destruct (m' !! p) as [[c|]|] eqn:E;
      [by rewrite !lookup_insert_eq | by rewrite H, E..].
Qed.

(** What the attempt on [pk] leaves where [docs.json] was missing. *)
Definition leaves pk : option node :=
  match fetch_docs_json w (author pk) (name pk) (version pk) with
  | inl _ => None
  | inr docs => (write_docs w (docs_path pk) docs ∅).1 !! docs_path pk
  end.

Lemma write_docs_same p docs m m' :
  m !! p = None → m' !! p = None →
  (write_docs w p docs m).1 !! p = (write_docs w p docs m').1 !! p.
Proof.
  intros H H'. unfold write_docs, is_dir. rewrite H, H'.
  destruct (write_fault w p) as [k|]; [destruct (k <? _)%nat|]; cbn [fst];
    apply exec_ops_same; congruence.
Qed.

Lemma iteration_leaves delay n i pk st :
  disk st !! docs_path pk = None →
  disk (iteration w delay n i pk st) !! docs_path pk = leaves pk.
Proof.
  intros Hp. unfold iteration, leaves.
  destruct (fetch_docs_json w _ _ _) as [[]|docs]; simpl.
  1,2: by destruct (Qpositive delay && (i <? n)%nat).
  rewrite <- (write_docs_same (docs_path pk) docs (disk st) ∅ Hp)
    by apply lookup_empty.
  destruct (write_docs w _ _ _) as [m' []];
    by destruct (Qpositive delay && (i <? n)%nat).
Qed.

Lemma loop_leaves delay n i pks pk st :
  NoDup (docs_path <$> pks) → pk ∈ pks →
  disk st !! docs_path pk = None →
  disk (loop w delay n i pks st) !! docs_path pk = leaves pk.
Proof.
  intros Hnd Hpk Hp.
  apply list_elem_of_split in Hpk as (l1 & l2 & ->).
  rewrite fmap_app, fmap_cons in Hnd.
  apply NoDup_app in Hnd as (_ & H1 & [H2 _]%NoDup_cons).
  rewrite loop_app. simpl.
  rewrite loop_disk_other by done.
  apply iteration_leaves. rewrite loop_disk_other; [done|].
  intros Hin. apply (H1 _ Hin). by left.
Qed.

Lemma main_leaves a m pk :
  m !! packages_dir_of a = Some Dir → rate_limit a < FLOAT_LIMIT →
  pk ∈ find_packages m (packages_dir_of a) →
  disk (main w a m).2 !! docs_path pk = leaves pk.
Proof.
  intros Hd Hlim Hpk. destruct (delay_of_Some _ Hlim) as [delay Hdelay].
  rewrite (main_dir w a m delay) by done. cbn [snd]. unfold final.
  apply loop_leaves; [apply NoDup_docs_paths | done |]. simpl.
  by apply elem_of_find_packages in Hpk as [(_ & _ & _ & _ & Hn) ->].
Qed.

Lemma length_dump_ops docs :
  length (dump_ops w docs) = S (S (length (iterencode w docs))).
Proof. unfold dump_ops. simpl. rewrite length_app, length_fmap. simpl. lia. Qed.

Lemma dump_all p docs :
  exec_ops p (dump_ops w docs) ∅ !! p = Some (File (dumps w docs)).
Proof.
  destruct (exec_take_dump_ops w p docs ∅ (length (dump_ops w docs)))
    as (j & Hj & Hlen).
  { rewrite length_dump_ops. lia. }
  rewrite firstn_all in Hj. rewrite Hj, Hlen by lia. by rewrite firstn_all.
Qed.

Lemma leaves_ok pk docs :
  fetch_docs_json w (author pk) (name pk) (version pk) = inr docs →
  write_fails w (docs_path pk) docs = false →
  leaves pk = Some (File (dumps w docs)).
Proof.
  unfold leaves, write_fails, write_docs. intros -> Hw.
  unfold is_dir. rewrite lookup_empty.
  destruct (write_fault w (docs_path pk)) as [k|].
  - rewrite Hw. cbn [fst]. apply dump_all.
  - cbn [fst]. apply dump_all.
Qed.

Lemma leaves_None pk :
  leaves pk = None ↔
  fetch_fails w pk = true ∨ write_fault w (docs_path pk) = Some 0%nat.
Proof.
  unfold leaves, fetch_fails, write_docs.
  destruct (fetch_docs_json w _ _ _) as [e|docs]; [split; auto|].
  unfold is_dir. rewrite lookup_empty.
  destruct (write_fault w (docs_path pk)) as [k|] eqn:E.
  - destruct (Nat.ltb_spec k (length (dump_ops w docs))) as [Hk|Hk];
      cbn [fst].
    + destruct k as [|k]; [split; auto|].
      destruct (exec_take_dump_ops w (docs_path pk) docs ∅ (S k))
        as (j & Hj & _); [lia|]. rewrite Hj.
      split; [done | by intros [?|?]].
    + rewrite dump_all. rewrite length_dump_ops in Hk. split; [done|].
      intros [?|[= ->]]; [done | lia].
  - cbn [fst]. rewrite dump_all. split; [done | by intros [?|?]].
Qed.

Lemma main_disk_short a m (l : list string) :
  (∀ x y z : string, l ≠ [x; y; z; "docs.json"]) →
  disk (main w a m).2 !! (packages_dir_of a ++ l)
  = m !! (packages_dir_of a ++ l).
Proof.
  intros Hl. apply main_disk_other.
  intros (pk & Heq & Hpk)%list_elem_of_fmap.
  apply find_packages_docs_path in Hpk. rewrite Hpk in Heq.
  apply app_inv_head in Heq. by apply Hl in Heq.
Qed.

(** The version directories that need docs after the run: those that
    needed them before and still have no [docs.json]. *)
Lemma needs_docs_after a m (au nm ver : string) :
  needs_docs (disk (main w a m).2) (packages_dir_of a) au nm ver ↔
  needs_docs m (packages_dir_of a) au nm ver ∧
  disk (main w a m).2 !! (packages_dir_of a ++ [au; nm; ver; "docs.json"])
  = None.
Proof.
  unfold needs_docs.
  rewrite (main_disk_short a m [au]) by (intros x y z; discriminate).
  rewrite (main_disk_short a m [au; nm]) by (intros x y z; discriminate).
  rewrite (main_disk_short a m [au; nm; ver]) by (intros x y z; discriminate).
  rewrite (main_disk_short a m [au; nm; ver; "elm.json"])
    by (intros x y z; discriminate).
  split; [|by intros [(? & ? & ? & ? & ?) ?]].
  intros (H1 & H2 & H3 & H4 & H5). split; [|done].
  repeat (split; [done|]).
  destruct (decide (packages_dir_of a ++ [au; nm; ver; "docs.json"]
                    ∈ docs_path <$> find_packages m (packages_dir_of a)))
    as [Hin|Hout].
  - apply elem_of_docs_paths in Hin as (au' & nm' & ver' & Hn & Heq).
    apply app_inv_head in Heq. injection Heq as -> -> ->.
    by destruct Hn as (_ & _ & _ & _ & ?).
  - by rewrite <- (main_disk_other w a m _ Hout).
Qed.

(** X9: what was fetched is what is stored: in a run with a rate limit
    below [FLOAT_LIMIT], when the fetch of a selected package returns a
    document and its write does not fail, the run leaves the document's
    JSON text as that package's [docs.json]. *)
Theorem backfill_stores_fetched a m pk docs :
  m !! packages_dir_of a = Some Dir → rate_limit a < FLOAT_LIMIT →
  pk ∈ find_packages m (packages_dir_of a) →
  fetch_docs_json w (author pk) (name pk) (version pk) = inr docs →
  write_fails w (docs_path pk) docs = false →
  disk (main w a m).2 !! docs_path pk = Some (File (dumps w docs)).
Proof.
  intros Hd Hlim Hpk Hf Hw. rewrite main_leaves by done. by apply leaves_ok.
Qed.

(** X10: after a run with a rate limit below [FLOAT_LIMIT], the next run
    selects a version exactly when this run had selected it and its fetch
    failed or its [docs.json] could not be opened.  A version whose write
    failed once the file was open is counted as failed but is not selected
    again: the file it left stands for its docs. *)
Theorem backfill_next_selection a m pk :
  m !! packages_dir_of a = Some Dir → rate_limit a < FLOAT_LIMIT →
  pk ∈ find_packages (disk (main w a m).2) (packages_dir_of a) ↔
  pk ∈ find_packages m (packages_dir_of a) ∧
  (fetch_fails w pk = true ∨ write_fault w (docs_path pk) = Some 0%nat).
Proof.
  intros Hd Hlim. rewrite !elem_of_find_packages, needs_docs_after. split.
  - intros [[Hn Hnone] Hp]. split; [done|].
    apply leaves_None. rewrite <- main_leaves with (a := a) (m := m);
      [by rewrite Hp | done | done | by apply elem_of_find_packages].
  - intros [[Hn Hp] Hfail]. split; [|done]. split; [done|].
    rewrite <- Hp. rewrite main_leaves;
      [by apply leaves_None | done | done | by apply elem_of_find_packages].
Qed.

Lemma fails_of_leaves_None pk :
  leaves pk = None → attempt_fails w pk = true.
Proof.
  intros [Hf|Hw]%leaves_None; unfold fetch_fails, attempt_fails in *.
  - by destruct (fetch_docs_json w _ _ _).
  - destruct (fetch_docs_json w _ _ _) as [e|docs]; [done|].
    unfold write_fails. rewrite Hw, length_dump_ops. done.
Qed.

Lemma no_failures pks pk :
  failures w pks = 0%nat → pk ∈ pks → attempt_fails w pk = false.
Proof.
  unfold failures. intros Hlen Hpk.
  destruct (attempt_fails w pk) eqn:E; [|done].
  assert (In pk (List.filter (attempt_fails w) pks)) as Hin.
  { apply filter_In. split; [by apply list_elem_of_In | done]. }
  destruct (List.filter (attempt_fails w) pks); [done | discriminate].
Qed.

(** X11: after a run with a rate limit below [FLOAT_LIMIT] in which no
    attempt failed there is nothing left to do: a second run, whatever the
    network would answer, makes no request, changes nothing and exits with
    0. *)
Theorem backfill_second_run (w' : world (json := json)) a m :
  m !! packages_dir_of a = Some Dir → rate_limit a < FLOAT_LIMIT →
  failures w (find_packages m (packages_dir_of a)) = 0%nat →
  main w' a (disk (main w a m).2)
  = (Exit 0, Run (disk (main w a m).2) 0 0 []).
Proof.
  intros Hd Hlim Hfail. set (m' := disk (main w a m).2).
  destruct (delay_of_Some _ Hlim) as [delay Hdelay].
  assert (m' !! packages_dir_of a = Some Dir) as Hd'.
  { rewrite <- Hd. rewrite <- (app_nil_r (packages_dir_of a)).
    apply main_disk_short. intros x y z. discriminate. }
  assert (find_packages m' (packages_dir_of a) = []) as Hnil.
  { destruct (find_packages m' (packages_dir_of a)) as [|pk l] eqn:E; [done|].
    exfalso.
    assert (pk ∈ find_packages m' (packages_dir_of a)) as Hpk
      by (rewrite E; by left).
    apply elem_of_find_packages in Hpk as [Hn Hp].
    apply needs_docs_after in Hn as [Hn Hnone].
    assert (pk ∈ find_packages m (packages_dir_of a)) as Hpk
      by by apply elem_of_find_packages.
    rewrite <- Hp in Hnone. unfold m' in Hnone.
    rewrite main_leaves in Hnone by done.
    apply fails_of_leaves_None in Hnone.
    by rewrite (no_failures _ pk Hfail Hpk) in Hnone. }
  unfold main. fold (packages_dir_of a).
  unfold exists_, is_dir. rewrite Hd', Hdelay. simpl. by rewrite Hnil.
Qed.

(** *** The time spent sleeping *)

Definition sleep_total (tr : list event) : Q :=
  foldr (λ e acc, match e with EvSleep seconds => seconds + acc | _ => acc end)%Q
        0%Q tr.

Lemma sleep_total_app (tr1 tr2 : list event) :
  (sleep_total (tr1 ++ tr2) == sleep_total tr1 + sleep_total tr2)%Q.
Proof.
  induction tr1 as [|e tr1 IH]; simpl; [lra|].
  destruct e; simpl; lra.
Qed.

Lemma sleep_total_loop_events delay pks i :
  Qpositive delay = true →
  (sleep_total (loop_events w delay (i + length pks) (S i) pks)
   == inject_Z (Z.of_nat (length pks - 1)) * delay)%Q.
Proof.
  intros Hpos. revert i. induction pks as [|pk pks IH]; intros i.
  - change (0 == 0 * delay)%Q. lra.
  - cbn [loop_events]. unfold iteration_events. rewrite Hpos.
    replace (i + length (pk :: pks))%nat with (S i + length pks)%nat
      by (simpl; lia).
    rewrite !sleep_total_app, (IH (S i)).
    assert (sleep_total (if fetch_fails w pk then []
                         else [EvWrite (docs_path pk)]) == 0)%Q as ->
      by (by destruct (fetch_fails w pk)).
    destruct pks as [|pk' pks].
    + assert ((S i <? S i + length (@nil pkg))%nat = false) as ->
        by (apply Nat.ltb_ge; simpl; lia).
      simpl. lra.
    + assert ((S i <? S i + length (pk' :: pks))%nat = true) as ->
        by (apply Nat.ltb_lt; simpl; lia).
      replace (length (pk :: pk' :: pks) - 1)%nat
        with (S (length (pk' :: pks) - 1)) by (simpl; lia).
      rewrite Nat2Z.inj_succ, <- Z.add_1_r, inject_Z_plus.
      change (inject_Z 1) with 1%Q. simpl sleep_total. lra.
Qed.

(** X12: with a rate limit [N > 0] below [FLOAT_LIMIT] a run over [n]
    selected packages sleeps [(n - 1) * d] seconds in all ([n - 1] being 0
    for no package), [d] being the double that [3600.0 / N] yields. *)
Theorem backfill_sleep_total a m :
  m !! packages_dir_of a = Some Dir →
  0 < rate_limit a < FLOAT_LIMIT →
  ∃ y, float_of_int (rate_limit a) = Some y ∧
    (sleep_total (trace (main w a m).2)
     == inject_Z (Z.of_nat (length (find_packages m (packages_dir_of a)) - 1))
        * value (SFdiv prec emax f3600 y))%Q.
Proof.
  intros Hd HN.
  destruct (delay_of_pos (rate_limit a) HN) as (y & Hy & Hdelay & Hpos & _).
  exists y. split; [done|].
  rewrite (main_dir w a m _ Hd Hdelay). cbn [snd]. rewrite final_trace.
  apply (sleep_total_loop_events _ _ 0). by apply Qpositive_lt.
Qed.

(** X16: a run never overwrites or removes anything: whatever was on the
    disk before is there unchanged afterwards (the files it writes did not
    exist). *)
Theorem backfill_never_overwrites a m q (v : node) :
  m !! q = Some v → disk (main w a m).2 !! q = Some v.
Proof.
  intros Hq. rewrite main_disk_other; [done|].
  intros (pk & -> & Hpk)%list_elem_of_fmap.
  apply elem_of_find_packages in Hpk as [(_ & _ & _ & _ & Hnone) Hp].
  rewrite Hp in Hq. congruence.
Qed.

End Runs.

(** *** The sample mirror again *)

Definition html_pkg : pkg :=
  Pkg "elm" "html" "1.0.0"
      ["srv"; "mirror"; "packages"; "elm"; "html"; "1.0.0"; "docs.json"].

Definition core_pkg : pkg := Pkg "elm" "core" "1.0.5" core_docs.

(** A network on which every fetch succeeds. *)
Definition good_world : world (json := list string) :=
  World (λ _, Response "[1, 2]") (json_loads sample_world) sample_iterencode
        (λ _, None).

Lemma backfill_stores_fetched_witness :
  disk (main sample_world sample_args sample_disk).2 !! core_docs
  = Some (File "[1, 2]").
Proof.
  apply (backfill_stores_fetched sample_world sample_args sample_disk
           core_pkg ["1"; "2"]).
  - reflexivity.
  - apply sample_rate_limit.
  - apply elem_of_find_packages. repeat split; try reflexivity. by eexists.
  - reflexivity.
  - reflexivity.
Defined.

Lemma backfill_next_selection_witness :
  sample_disk !! packages_dir_of sample_args = Some Dir ∧
  rate_limit sample_args < FLOAT_LIMIT ∧
  html_pkg ∈ find_packages (disk (main sample_world sample_args sample_disk).2)
                           (packages_dir_of sample_args).
Proof.
  split; [reflexivity|]. split; [apply sample_rate_limit|].
  apply (backfill_next_selection sample_world sample_args sample_disk html_pkg);
    [reflexivity | apply sample_rate_limit |].
  split; [|left; reflexivity].
  apply elem_of_find_packages. repeat split; try reflexivity. by eexists.
Defined.

Lemma backfill_second_run_witness :
  main sample_world sample_args (disk (main good_world sample_args sample_disk).2)
  = (Exit 0, Run (disk (main good_world sample_args sample_disk).2) 0 0 []).
Proof.
  apply (backfill_second_run good_world sample_world sample_args sample_disk);
    [reflexivity | apply sample_rate_limit | reflexivity].
Defined.

Lemma backfill_never_overwrites_witness :
  disk (main faulty_world sample_args sample_disk).2
    !! ["srv"; "mirror"; "packages"; "elm"; "json"; "1.1.3"; "docs.json"]
  = Some (File "[]").
Proof.
  apply (backfill_never_overwrites faulty_world sample_args sample_disk).
  reflexivity.
Defined.

Lemma backfill_sleep_total_witness :
  sample_disk !! packages_dir_of sample_args = Some Dir ∧
  0 < rate_limit sample_args < FLOAT_LIMIT ∧
  (sleep_total (trace (main sample_world sample_args sample_disk).2)
   == 1 * sample_delay)%Q.
Proof.
  split; [reflexivity|]. split; [apply sample_rate_limit|].
  destruct (backfill_sleep_total sample_world sample_args sample_disk
              eq_refl sample_rate_limit) as (y & Hy & Hs).
  injection Hy as <-. exact Hs.
Defined.

End BackfillDocsRuns.

(** ** Properties of the test runner *)

Module TestIntegrationSpec.
Import TestIntegration.

Definition passes (t : string * test_outcome) : bool :=
  match t.2 with
  | Returns true => true
  | _ => false
  end.

Lemma run_tests tests all_passed results :
  fold_left run_test tests (all_passed, results)
  = (all_passed && forallb passes tests,
     results ++ ((λ t, (t.1, passes t)) <$> tests)).
Proof.
  revert all_passed results.
  induction tests as [|[name o] tests IH]; intros all_passed results; simpl.
  - by rewrite andb_true_r, app_nil_r.
  - destruct o as [[]|msg]; simpl; rewrite IH, <- app_assoc; simpl;
      by destruct all_passed.
Qed.

(** X13: the test runner runs every test, whether or not an earlier one
    failed or raised: its summary has one entry per test, in order, marked
    as passed exactly when the test returned true; and its exit status is 0
    if every test returned true, and 1 otherwise. *)
Theorem main_runs_all_tests (tests : list (string * test_outcome)) :
  (main tests).2 = (λ t, (t.1, passes t)) <$> tests ∧
  ((main tests).1 = 0 ↔ Forall (λ t, t.2 = Returns true) tests) ∧
  ((main tests).1 = 0 ∨ (main tests).1 = 1).
Proof.
  unfold main. rewrite run_tests. simpl. split; [done|].
  destruct (forallb passes tests) eqn:E.
  - split; [|by left]. split; [|done]. intros _.
    apply Forall_forall. intros [name o] Hin.
    rewrite forallb_forall in E.
    specialize (E _ (proj1 (list_elem_of_In _ _) Hin)).
    unfold passes in E. simpl in *. by destruct o as [[]|].
  - split; [|by right]. split; [done|]. intros Hall. exfalso.
    assert (forallb passes tests = true); [|congruence].
    apply forallb_forall. intros [name o] Hin.
    apply list_elem_of_In in Hin.
    rewrite Forall_forall in Hall. specialize (Hall _ Hin).
    unfold passes. simpl in *. by rewrite Hall.
Qed.

Example main_summary :
  main [("Sync", Returns true); ("Verify", Raises "boom");
        ("Serve", Returns false); ("Incremental Sync", Returns true)]
  = (1, [("Sync", true); ("Verify", false); ("Serve", false);
         ("Incremental Sync", true)]).
Proof. reflexivity. Qed.

End TestIntegrationSpec.
